(** * ChunkDecoder: a shallow embedding of [src/ChunkDecoder.js]

    The decoder turns a byte buffer into a chunk (sub-chunks, layers, sparse
    blocks), resolves runtime ids to names through a mapping table, caches the
    decoded chunk under the key ["x,z"] and answers point queries.

    Conventions of the embedding:
    - JavaScript integers are [Z]; [%] is [Z.rem] (the sign follows the
      dividend) and [Math.floor (a / b)] with [b > 0] is [Z.div];
    - a [Buffer] is a [list byte]; [readUInt8]/[readInt8] are partial, the
      runtime raising a [RangeError] outside the buffer;
    - the object [blockMappings], indexed by integer runtime ids, is a
      [gmap Z string]; the [Map] [chunkCache] is a [gmap string Chunk.t]
      keyed by the template string of the source;
    - a method that may throw returns a [completion]; a method that mutates
      the decoder returns the new decoder next to its completion;
    - a [for] loop is a [Fixpoint] on a number of iterations still allowed,
      with the guard of the source tested at every turn; the callers hand in
      the bound of the loop counter, and the [_fuel] and [_total] lemmas show
      that more would change nothing;
    - [console.log]/[console.warn] output is not modelled. *)

From Stdlib Require Import ZArith Lia Strings.Ascii Strings.Byte Sorted.
From stdpp Require Import base gmap strings pretty list.

Open Scope Z_scope.

(** ** Completions: normal return or a thrown [Error] with its message *)

Inductive completion (A : Type) : Type :=
| Return (value : A)
| Throw (message : string).
Arguments Return {A} value.
Arguments Throw {A} message.

Definition bind {A B} (c : completion A) (k : A -> completion B) : completion B :=
  match c with
  | Return a => k a
  | Throw m => Throw m
  end.

Notation "'let*' p ':=' c 'in' k" := (bind c (fun p => k))
  (at level 10, p pattern, c at level 100, k at level 200, only parsing).

(** ** Buffers *)

Module Buffer.

Definition length (payload : list byte) : Z := Z.of_nat (List.length payload).

(** The byte stored at [offset], when [0 <= offset < length]. *)
Definition get (payload : list byte) (offset : Z) : option byte :=
  if 0 <=? offset then payload !! Z.to_nat offset else None.

Definition readUInt8 (payload : list byte) (offset : Z) : option Z :=
  (fun b => Z.of_N (Byte.to_N b)) <$> get payload offset.

Definition toInt8 (u : Z) : Z := if 128 <=? u then u - 256 else u.

Definition readInt8 (payload : list byte) (offset : Z) : option Z :=
  toInt8 <$> readUInt8 payload offset.

(** Message of the runtime's [RangeError] for a read outside the buffer.
    The text belongs to the runtime, not to the repository. *)
Definition outOfRange : string := "The value of offset is out of range".

Definition orThrow {A} (r : option A) : completion A :=
  match r with
  | Some a => Return a
  | None => Throw outOfRange
  end.

End Buffer.

(** ** Data model *)

Module Block.
Record t : Type := mk
  { index : Z; id : Z; name : string; x : Z; y : Z; z : Z }.
End Block.

Module Layer.
Record t : Type := mk { index : Z; blocks : list Block.t }.
End Layer.

Module SubChunk.
Record t : Type := mk { y : Z; version : Z; layers : list Layer.t }.
End SubChunk.

Module Chunk.
Record t : Type := mk { x : Z; z : Z; subChunks : list SubChunk.t }.
End Chunk.

(** An element of the array handed to [setBlockMappings]: [name] is a
    string, [runtime_id] is [None] when the property is [undefined]. *)
Record ItemState : Type := mkItemState
  { name : string; runtime_id : option Z }.

(** The decoder instance: the two fields set up by the constructor. *)
Record ChunkDecoder : Type := mkChunkDecoder
  { blockMappings : gmap Z string;
    chunkCache : gmap string Chunk.t }.

Definition constructor : ChunkDecoder :=
  {| blockMappings := ∅; chunkCache := ∅ |}.

(** What [decodeSubChunk] returns: the sub-chunk and the advanced cursor. *)
Record SubChunkData : Type := mkSubChunkData
  { data : SubChunk.t; newOffset : Z }.

(** ** setBlockMappings *)

Definition setBlockMapping (this : ChunkDecoder) (state : ItemState) : ChunkDecoder :=
  match runtime_id state with
  | Some rid =>
      {| blockMappings := <[rid := name state]> (blockMappings this);
         chunkCache := chunkCache this |}
  | None => this
  end.

Definition setBlockMappings (this : ChunkDecoder) (itemstates : list ItemState)
  : ChunkDecoder :=
  foldl setBlockMapping this itemstates.

(** ** createBlockData *)

(** [a || b] where [a] is a string or [undefined]: the empty string and
    [undefined] are the falsy values. *)
Definition orElse (a : option string) (b : string) : string :=
  match a with
  | Some s => if bool_decide (s = EmptyString) then b else s
  | None => b
  end.

Definition unknownBlock (blockId : Z) : string := "unknown_block_" +:+ pretty blockId.

Definition createBlockData (this : ChunkDecoder) (blockId index : Z) : Block.t :=
  {| Block.index := index;
     Block.id := blockId;
     Block.name := orElse (blockMappings this !! blockId) (unknownBlock blockId);
     Block.x := Z.rem index 16;
     Block.y := index / 256;
     Block.z := Z.rem index 256 / 16 |}.

(** ** decodeSubChunk *)

Section Decode.

Variable this : ChunkDecoder.
Variable payload : list byte.

(** Iterations available to the innermost loop: [i] runs over [0 .. 4095]. *)
Definition blockFuel : nat := 4096.

(** The innermost loop, [for (let i = 0; i < 4096 && offset < payload.length - 1; i++)].
    A failed read is caught, the cursor having been advanced already, and
    leaves the loop. *)
Fixpoint blockLoop (fuel : nat) (i offset : Z) (blocks : list Block.t)
  : list Block.t * Z :=
  match fuel with
  | O => (blocks, offset)
  | S fuel =>
      if (i <? 4096) && (offset <? Buffer.length payload - 1) then
        match Buffer.readUInt8 payload offset with
        | Some blockId =>
            let offset := offset + 1 in
            let blocks :=
              if negb (blockId =? 0)
              then blocks ++ [createBlockData this blockId i]
              else blocks in
            blockLoop fuel (i + 1) offset blocks
        | None => (blocks, offset + 1)
        end
      else (blocks, offset)
  end.

(** [for (let layer = 0; layer < layerCount && offset < payload.length - 1; layer++)]. *)
Fixpoint layerLoop (layerCount : Z) (fuel : nat) (layer offset : Z)
  (layers : list Layer.t) : list Layer.t * Z :=
  match fuel with
  | O => (layers, offset)
  | S fuel =>
      if (layer <? layerCount) && (offset <? Buffer.length payload - 1) then
        let '(blocks, offset) := blockLoop blockFuel 0 offset [] in
        let layers :=
          if 0 <? Z.of_nat (length blocks)
          then layers ++ [ {| Layer.index := layer; Layer.blocks := blocks |} ]
          else layers in
        layerLoop layerCount fuel (layer + 1) offset layers
      else (layers, offset)
  end.

Definition decodeSubChunk (offset yLevel : Z) : completion SubChunkData :=
  if Buffer.length payload - 1 <=? offset then
    Throw "Buffer overflow while reading subchunk"
  else
    let* version := Buffer.orThrow (Buffer.readInt8 payload offset) in
    let offset := offset + 1 in
    let* layerCount := Buffer.orThrow (Buffer.readInt8 payload offset) in
    let offset := offset + 1 in
    let '(layers, offset) :=
      layerLoop layerCount (Z.to_nat layerCount) 0 offset [] in
    Return {| data := {| SubChunk.y := yLevel;
                         SubChunk.version := version;
                         SubChunk.layers := layers |};
              newOffset := offset |}.

(** ** decodeChunk *)

(** [for (let y = 0; y < subChunkCount && offset < payload.length - 1; y++)];
    the final cursor is returned next to the sub-chunks. *)
Fixpoint subChunkLoop (subChunkCount : Z) (fuel : nat) (y offset : Z)
  (subChunks : list SubChunk.t) : completion (list SubChunk.t * Z) :=
  match fuel with
  | O => Return (subChunks, offset)
  | S fuel =>
      if (y <? subChunkCount) && (offset <? Buffer.length payload - 1) then
        let* subChunkData := decodeSubChunk offset y in
        subChunkLoop subChunkCount fuel (y + 1) (newOffset subChunkData)
          (subChunks ++ [data subChunkData])
      else Return (subChunks, offset)
  end.

End Decode.

Definition cacheKey (x z : Z) : string := pretty x +:+ "," +:+ pretty z.

Definition cacheChunk (this : ChunkDecoder) (chunk : Chunk.t) : ChunkDecoder :=
  let key := cacheKey (Chunk.x chunk) (Chunk.z chunk) in
  {| blockMappings := blockMappings this;
     chunkCache := <[key := chunk]> (chunkCache this) |}.

Definition getLastDecodedChunk (this : ChunkDecoder) (x z : Z) : option Chunk.t :=
  chunkCache this !! cacheKey x z.

(** The statements of the [try] block up to the call of [cacheChunk]; an
    absent payload ([null] or [undefined]) is [None]. *)
Definition decodeChunkTry (this : ChunkDecoder) (payload : option (list byte))
  (chunkX chunkZ : Z) : completion Chunk.t :=
  match payload with
  | None => Throw "Invalid chunk payload: too short"
  | Some payload =>
      if Buffer.length payload <? 2 then Throw "Invalid chunk payload: too short"
      else
        let offset := 0 in
        let* subChunkCount := Buffer.orThrow (Buffer.readInt8 payload offset) in
        let offset := offset + 1 in
        let* storageVersion := Buffer.orThrow (Buffer.readInt8 payload offset) in
        let offset := offset + 1 in
        let* loop :=
          subChunkLoop this payload subChunkCount (Z.to_nat subChunkCount) 0 offset [] in
        Return {| Chunk.x := chunkX; Chunk.z := chunkZ; Chunk.subChunks := loop.1 |}
  end.

Definition decodeFailure (chunkX chunkZ : Z) (message : string) : string :=
  "Failed to decode chunk at " +:+ pretty chunkX +:+ "," +:+ pretty chunkZ
    +:+ ": " +:+ message.

Definition decodeChunk (this : ChunkDecoder) (payload : option (list byte))
  (chunkX chunkZ : Z) : completion Chunk.t * ChunkDecoder :=
  match decodeChunkTry this payload chunkX chunkZ with
  | Return chunk => (Return chunk, cacheChunk this chunk)
  | Throw message => (Throw (decodeFailure chunkX chunkZ message), this)
  end.

(** ** getBlockAt *)

Definition subChunkIndexOf (y : Z) : Z := y / 16.
Definition localYOf (y : Z) : Z := Z.rem y 16.
Definition blockIndexOf (localY x z : Z) : Z := localY * 256 + z * 16 + x.

(** [for (const layer of subChunk.layers)] with the early [return block]. *)
Fixpoint findBlock (layers : list Layer.t) (blockIndex : Z) : option Block.t :=
  match layers with
  | [] => None
  | layer :: layers =>
      match find (fun b => Block.index b =? blockIndex) (Layer.blocks layer) with
      | Some block => Some block
      | None => findBlock layers blockIndex
      end
  end.

(** The result is [None] for [null]. *)
Definition getBlockAt (chunk : Chunk.t) (x y z : Z) : completion (option Block.t) :=
  if (x <? 0) || (15 <? x) || (z <? 0) || (15 <? z) then
    Throw "Local coordinates must be between 0-15"
  else
    let subChunkIndex := subChunkIndexOf y in
    let localY := localYOf y in
    match find (fun sc => SubChunk.y sc =? subChunkIndex) (Chunk.subChunks chunk) with
    | None => Return None
    | Some subChunk =>
        let blockIndex := blockIndexOf localY x z in
        match findBlock (SubChunk.layers subChunk) blockIndex with
        | Some block => Return (Some block)
        | None =>
            Return (Some {| Block.index := blockIndex;
                            Block.id := 0;
                            Block.name := "air";
                            Block.x := x; Block.y := y; Block.z := z |})
        end
    end.

Definition airSentinel (blockIndex x y z : Z) : Block.t :=
  {| Block.index := blockIndex; Block.id := 0; Block.name := "air";
     Block.x := x; Block.y := y; Block.z := z |}.

(** ** Predicates used in the statements *)

(** A block appended by the block loop started at counter [i] and cursor
    [offset]: where it was read and what it holds. *)
Definition blockReadAt (this : ChunkDecoder) (payload : list byte)
  (i offset : Z) (b : Block.t) : Prop :=
  i <= Block.index b < 4096
  /\ 0 < Block.id b < 256
  /\ b = createBlockData this (Block.id b) (Block.index b)
  /\ offset + (Block.index b - i) < Buffer.length payload - 1
  /\ Buffer.readUInt8 payload (offset + (Block.index b - i)) = Some (Block.id b).

(** A layer kept by the layer loop started at counter [layer] and cursor
    [offset]: its blocks are the non-empty outcome of one run of the block
    loop at some cursor [o] not before [offset]. *)
Definition layerReadAt (this : ChunkDecoder) (payload : list byte)
  (layerCount layer offset : Z) (l : Layer.t) : Prop :=
  layer <= Layer.index l < layerCount
  /\ Layer.blocks l <> []
  /\ exists o, offset <= o < Buffer.length payload - 1
       /\ Layer.blocks l = (blockLoop this payload blockFuel 0 o []).1.

(** A sub-chunk appended by the sub-chunk loop started at cursor [offset]:
    it is what [decodeSubChunk] returns for its slot at some cursor [o] not
    before [offset] at which two header bytes are available. *)
Definition subChunkReadAt (this : ChunkDecoder) (payload : list byte)
  (offset : Z) (sc : SubChunk.t) : Prop :=
  exists o r, offset <= o < Buffer.length payload - 1
    /\ decodeSubChunk this payload o (SubChunk.y sc) = Return r
    /\ data r = sc.

(** Two buffers of one length that hold the same bytes at every offset from
    [lo] up to, and excluding, the last one. *)
Definition agreeFrom (lo : Z) (p q : list byte) : Prop :=
  length p = length q
  /\ forall o, lo <= o < Buffer.length p - 1 -> Buffer.get p o = Buffer.get q o.

(** The name carried by the last element of [itemstates] whose [runtime_id]
    is [rid], if there is one. *)
Definition lastNameFor (rid : Z) (itemstates : list ItemState) : option string :=
  name <$> last (filter (fun state => runtime_id state = Some rid) itemstates).

(** What is required of a layer kept in a sub-chunk: it holds at least one
    block, its blocks come in strictly ascending index order, no index occurs
    twice, and no block is air. *)
Definition layerWellFormed (l : Layer.t) : Prop :=
  Layer.blocks l <> []
  /\ StronglySorted Z.lt (Block.index <$> Layer.blocks l)
  /\ NoDup (Block.index <$> Layer.blocks l)
  /\ Forall (fun b => Block.id b <> 0) (Layer.blocks l).

(** A layer kept by the layer loop started at counter [layer] and cursor
    [offset], with the cursor its block loop started from spelled out: every
    earlier layer took its full 4096 bytes. *)
Definition layerDecodedAt (this : ChunkDecoder) (payload : list byte)
  (layerCount layer offset : Z) (l : Layer.t) : Prop :=
  layer <= Layer.index l < layerCount
  /\ Layer.blocks l <> []
  /\ offset + 4096 * (Layer.index l - layer) < Buffer.length payload - 1
  /\ Layer.blocks l
     = (blockLoop this payload blockFuel 0
          (offset + 4096 * (Layer.index l - layer)) []).1.

(** A string without a comma. *)
Fixpoint commaFree (s : string) : Prop :=
  match s with
  | EmptyString => True
  | String c s => c <> ","%char /\ commaFree s
  end.

(** ** The event handlers of [src/index.js]

    The client hands a packet to each handler. Only what the handlers do to
    the decoder is modelled: their console output is not, and the [try] of
    the chunk handler catches whatever [decodeChunk] or the logging of the
    decoded chunk throws, so that the handler itself completes normally with
    the decoder [decodeChunk] left behind. *)

Module StartGame.
Record packet : Type := mk { itemstates : option (list ItemState) }.
End StartGame.

Module LevelChunk.
Record packet : Type := mk { payload : option (list byte); x : Z; z : Z }.
End LevelChunk.

(** [client.on('start_game', ...)]: [if (packet.itemstates)] holds for every
    array, the empty one included. *)
Definition onStartGame (decoder : ChunkDecoder) (packet : StartGame.packet)
  : ChunkDecoder :=
  match StartGame.itemstates packet with
  | Some itemstates => setBlockMappings decoder itemstates
  | None => decoder
  end.

(** [client.on('level_chunk', ...)]: [if (packet.payload)] holds for every
    buffer, the empty one included. *)
Definition onLevelChunk (decoder : ChunkDecoder) (packet : LevelChunk.packet)
  : completion unit * ChunkDecoder :=
  match LevelChunk.payload packet with
  | Some payload =>
      match decodeChunk decoder (Some payload) (LevelChunk.x packet) (LevelChunk.z packet) with
      | (Return decodedChunk, decoder) => (Return tt, decoder)
      | (Throw err, decoder) => (Return tt, decoder)
      end
  | None => (Return tt, decoder)
  end.

(** The sub-chunks collected from slot [y] and cursor [offset] on: none, or
    the one [decodeSubChunk] returns for slot [y] at [offset], where the two
    header bytes are available, followed by those collected from slot
    [y + 1] at the cursor that call handed back. The last index is the
    cursor after the last sub-chunk. *)
Inductive subChunkChain (this : ChunkDecoder) (payload : list byte)
  : Z -> Z -> list SubChunk.t -> Z -> Prop :=
| chain_stop y offset : subChunkChain this payload y offset [] offset
| chain_step y offset r subChunks offset' :
    offset < Buffer.length payload - 1 ->
    decodeSubChunk this payload offset y = Return r ->
    subChunkChain this payload (y + 1) (newOffset r) subChunks offset' ->
    subChunkChain this payload y offset (data r :: subChunks) offset'.


(** * Properties *)

(** ** Buffer reads *)

Lemma get_Some payload offset b :
  Buffer.get payload offset = Some b -> 0 <= offset < Buffer.length payload.
Proof.
  unfold Buffer.get, Buffer.length.
  destruct (Z.leb_spec 0 offset) as [Hle|Hlt]; [|discriminate].
  intros Hb%lookup_lt_Some. lia.
Qed.

Lemma get_is_Some payload offset :
  0 <= offset < Buffer.length payload -> is_Some (Buffer.get payload offset).
Proof.
  unfold Buffer.get, Buffer.length. intros [H0 H1].
  destruct (Z.leb_spec 0 offset) as [Hle|Hlt]; [|lia].
  apply lookup_lt_is_Some. lia.
Qed.

Lemma readUInt8_Some payload offset v :
  Buffer.readUInt8 payload offset = Some v ->
  0 <= offset < Buffer.length payload /\ 0 <= v < 256.
Proof.
  unfold Buffer.readUInt8.
  destruct (Buffer.get payload offset) as [b|] eqn:E; [|discriminate].
  intros [= <-]. split; [by eapply get_Some|].
  pose proof (Byte.to_N_bounded b). lia.
Qed.

Lemma readUInt8_is_Some payload offset :
  0 <= offset < Buffer.length payload -> is_Some (Buffer.readUInt8 payload offset).
Proof.
  intros [b Hb]%get_is_Some. unfold Buffer.readUInt8. rewrite Hb. by eexists.
Qed.

Lemma readInt8_is_Some payload offset :
  0 <= offset < Buffer.length payload -> is_Some (Buffer.readInt8 payload offset).
Proof.
  intros [v Hv]%readUInt8_is_Some. unfold Buffer.readInt8. rewrite Hv. by eexists.
Qed.

Lemma readInt8_Some payload offset v :
  Buffer.readInt8 payload offset = Some v ->
  0 <= offset < Buffer.length payload /\ -128 <= v < 128.
Proof.
  unfold Buffer.readInt8.
  destruct (Buffer.readUInt8 payload offset) as [u|] eqn:E; [|discriminate].
  apply readUInt8_Some in E as [? ?]. intros [= <-]. split; [done|].
  unfold Buffer.toInt8. destruct (Z.leb_spec 128 u); lia.
Qed.

(** ** The block loop *)

Section BlockLoop.

Variable this : ChunkDecoder.
Variable payload : list byte.

Let len := Buffer.length payload.

Lemma blockLoop_app fuel : forall i offset blocks,
  blockLoop this payload fuel i offset blocks
  = (blocks ++ (blockLoop this payload fuel i offset []).1,
     (blockLoop this payload fuel i offset []).2).
Proof.
  induction fuel as [|fuel IH]; intros i offset blocks; simpl.
  - by rewrite app_nil_r.
  - destruct ((i <? 4096) && (offset <? Buffer.length payload - 1));
      [|by rewrite app_nil_r].
    destruct (Buffer.readUInt8 payload offset) as [blockId|];
      [|by rewrite app_nil_r].
    rewrite IH. rewrite (IH _ _ (if negb (blockId =? 0) then _ else _)).
    destruct (negb (blockId =? 0)); simpl; by rewrite <- ?app_assoc.
Qed.

(** One unfolding of the loop started on an empty accumulator. *)
Lemma blockLoop_step fuel i offset :
  blockLoop this payload (S fuel) i offset []
  = if (i <? 4096) && (offset <? len - 1) then
      match Buffer.readUInt8 payload offset with
      | Some blockId =>
          ((if negb (blockId =? 0) then [createBlockData this blockId i] else [])
             ++ (blockLoop this payload fuel (i + 1) (offset + 1) []).1,
           (blockLoop this payload fuel (i + 1) (offset + 1) []).2)
      | None => ([], offset + 1)
      end
    else ([], offset).
Proof.
  simpl. subst len.
  destruct ((i <? 4096) && (offset <? Buffer.length payload - 1)); [|done].
  destruct (Buffer.readUInt8 payload offset) as [blockId|]; [|done].
  rewrite blockLoop_app. by destruct (negb (blockId =? 0)).
Qed.

Lemma blockLoop_unfold fuel i offset blocks :
  blockLoop this payload (S fuel) i offset blocks
  = if (i <? 4096) && (offset <? len - 1) then
      match Buffer.readUInt8 payload offset with
      | Some blockId =>
          blockLoop this payload fuel (i + 1) (offset + 1)
            (if negb (blockId =? 0)
             then blocks ++ [createBlockData this blockId i] else blocks)
      | None => (blocks, offset + 1)
      end
    else (blocks, offset).
Proof. reflexivity. Qed.

(** The loop needs at most [4096 - i] iterations: more fuel changes nothing. *)
Lemma blockLoop_fuel fuel : forall i offset blocks,
  (Z.to_nat (4096 - i) <= fuel)%nat ->
  blockLoop this payload (S fuel) i offset blocks
  = blockLoop this payload fuel i offset blocks.
Proof.
  induction fuel as [|fuel IH]; intros i offset blocks Hfuel.
  - simpl. destruct (Z.ltb_spec i 4096); [lia|done].
  - rewrite (blockLoop_unfold (S fuel)), (blockLoop_unfold fuel i offset blocks).
    destruct ((i <? 4096) && (offset <? len - 1)); [|done].
    destruct (Buffer.readUInt8 payload offset) as [blockId|]; [|done].
    apply IH. lia.
Qed.

Lemma blockLoop_blocks fuel : forall i offset,
  Forall (blockReadAt this payload i offset) (blockLoop this payload fuel i offset []).1.
Proof.
  induction fuel as [|fuel IH]; intros i offset; [by constructor|].
  rewrite blockLoop_step.
  destruct (Z.ltb_spec i 4096); simpl; [|by constructor].
  destruct (Z.ltb_spec offset (len - 1)); simpl; [|by constructor].
  destruct (Buffer.readUInt8 payload offset) as [blockId|] eqn:Hread;
    [|by constructor].
  simpl. apply Forall_app. split.
  - destruct (Z.eqb_spec blockId 0); simpl; constructor; [|by constructor].
    apply readUInt8_Some in Hread as Hrange.
    unfold blockReadAt; simpl.
    replace (offset + (i - i)) with offset by lia.
    repeat split; try done; lia.
  - eapply Forall_impl; [apply IH|].
    intros b (Hi & Hid & Hb & Ho & Hr). unfold blockReadAt.
    replace (offset + (Block.index b - i))
      with (offset + 1 + (Block.index b - (i + 1))) by lia.
    repeat split; try done; lia.
Qed.

Lemma blockLoop_sorted fuel : forall i offset,
  StronglySorted Z.lt (Block.index <$> (blockLoop this payload fuel i offset []).1).
Proof.
  induction fuel as [|fuel IH]; intros i offset; [by constructor|].
  rewrite blockLoop_step.
  destruct ((i <? 4096) && (offset <? len - 1)); [|by constructor].
  destruct (Buffer.readUInt8 payload offset) as [blockId|]; [|by constructor].
  simpl. destruct (negb (blockId =? 0)); simpl; [|apply IH].
  constructor; [apply IH|].
  apply Forall_fmap. eapply Forall_impl; [apply blockLoop_blocks|].
  intros b (Hi & _). simpl. lia.
Qed.

(** The cursor only moves forward and stops at [length - 1] at the latest. *)
Lemma blockLoop_offset fuel : forall i offset,
  offset <= (blockLoop this payload fuel i offset []).2 <= Z.max offset (len - 1).
Proof.
  induction fuel as [|fuel IH]; intros i offset; [simpl; lia|].
  rewrite blockLoop_step.
  destruct (Z.ltb_spec i 4096); simpl; [|lia].
  destruct (Z.ltb_spec offset (len - 1)); simpl; [|lia].
  destruct (Buffer.readUInt8 payload offset) as [blockId|]; simpl; [|lia].
  specialize (IH (i + 1) (offset + 1)). lia.
Qed.

(** With the guard open and the cursor inside the buffer a byte is consumed. *)
Lemma blockLoop_progress fuel offset :
  offset < len - 1 ->
  offset < (blockLoop this payload (S fuel) 0 offset []).2.
Proof.
  intros Ho. rewrite blockLoop_step.
  destruct (Z.ltb_spec 0 4096); [|lia].
  destruct (Z.ltb_spec offset (len - 1)); [|lia]. simpl.
  destruct (Buffer.readUInt8 payload offset); simpl; [|lia].
  pose proof (blockLoop_offset fuel (0 + 1) (offset + 1)). lia.
Qed.

End BlockLoop.

Arguments blockLoop : simpl never.

(** ** The layer loop *)

Section LayerLoop.

Variable this : ChunkDecoder.
Variable payload : list byte.
Variable layerCount : Z.

Let len := Buffer.length payload.

Lemma layerLoop_unfold fuel layer offset layers :
  layerLoop this payload layerCount (S fuel) layer offset layers
  = if (layer <? layerCount) && (offset <? len - 1) then
      let blocks := (blockLoop this payload blockFuel 0 offset []).1 in
      let offset' := (blockLoop this payload blockFuel 0 offset []).2 in
      layerLoop this payload layerCount fuel (layer + 1) offset'
        (if 0 <? Z.of_nat (length blocks)
         then layers ++ [ {| Layer.index := layer; Layer.blocks := blocks |} ]
         else layers)
    else (layers, offset).
Proof.
  simpl. by destruct (blockLoop this payload blockFuel 0 offset []).
Qed.

Lemma layerLoop_app fuel : forall layer offset layers,
  layerLoop this payload layerCount fuel layer offset layers
  = (layers ++ (layerLoop this payload layerCount fuel layer offset []).1,
     (layerLoop this payload layerCount fuel layer offset []).2).
Proof.
  induction fuel as [|fuel IH]; intros layer offset layers.
  - simpl. by rewrite app_nil_r.
  - rewrite !layerLoop_unfold.
    destruct ((layer <? layerCount) && (offset <? len - 1));
      [|simpl; by rewrite app_nil_r].
    simpl. rewrite IH.
    rewrite (IH _ _ (if 0 <? _ then _ else _)).
    destruct (0 <? _); simpl; by rewrite <- ?app_assoc.
Qed.

Lemma layerLoop_step fuel layer offset :
  layerLoop this payload layerCount (S fuel) layer offset []
  = if (layer <? layerCount) && (offset <? len - 1) then
      let blocks := (blockLoop this payload blockFuel 0 offset []).1 in
      let offset' := (blockLoop this payload blockFuel 0 offset []).2 in
      ((if 0 <? Z.of_nat (length blocks)
        then [ {| Layer.index := layer; Layer.blocks := blocks |} ] else [])
         ++ (layerLoop this payload layerCount fuel (layer + 1) offset' []).1,
       (layerLoop this payload layerCount fuel (layer + 1) offset' []).2)
    else ([], offset).
Proof.
  rewrite layerLoop_unfold.
  destruct ((layer <? layerCount) && (offset <? len - 1)); [|done].
  simpl. rewrite layerLoop_app. by destruct (0 <? _).
Qed.

(** At most [layerCount - layer] iterations are needed. *)
Lemma layerLoop_fuel fuel : forall layer offset layers,
  (Z.to_nat (layerCount - layer) <= fuel)%nat ->
  layerLoop this payload layerCount (S fuel) layer offset layers
  = layerLoop this payload layerCount fuel layer offset layers.
Proof.
  induction fuel as [|fuel IH]; intros layer offset layers Hfuel.
  - rewrite layerLoop_unfold. simpl.
    destruct (Z.ltb_spec layer layerCount); [lia|done].
  - rewrite (layerLoop_unfold (S fuel)), (layerLoop_unfold fuel layer offset layers).
    destruct (Z.ltb_spec layer layerCount); [|done].
    destruct (offset <? len - 1); [|done].
    simpl. apply IH. lia.
Qed.

Lemma layerLoop_offset fuel : forall layer offset,
  offset <= (layerLoop this payload layerCount fuel layer offset []).2
         <= Z.max offset (len - 1).
Proof.
  induction fuel as [|fuel IH]; intros layer offset; [simpl; lia|].
  rewrite layerLoop_step.
  destruct (layer <? layerCount); simpl; [|lia].
  destruct (Z.ltb_spec offset (len - 1)); simpl; [|lia].
  pose proof (blockLoop_offset this payload blockFuel 0 offset) as Hb.
  fold len in Hb.
  specialize (IH (layer + 1) (blockLoop this payload blockFuel 0 offset []).2). lia.
Qed.

Lemma layerLoop_layers fuel : forall layer offset,
  Forall (layerReadAt this payload layerCount layer offset)
    (layerLoop this payload layerCount fuel layer offset []).1.
Proof.
  induction fuel as [|fuel IH]; intros layer offset; [by constructor|].
  rewrite layerLoop_step.
  destruct (Z.ltb_spec layer layerCount); simpl; [|by constructor].
  destruct (Z.ltb_spec offset (len - 1)); simpl; [|by constructor].
  apply Forall_app. split.
  - destruct (blockLoop this payload blockFuel 0 offset []).1 as [|b bs] eqn:Hbs;
      simpl; constructor; [|by constructor].
    split; [simpl; lia|]. split; [done|].
    exists offset. simpl. by rewrite Hbs.
  - eapply Forall_impl; [apply IH|].
    intros l (Hi & Hne & o & Ho & Hl).
    pose proof (blockLoop_offset this payload blockFuel 0 offset).
    split; [lia|]. split; [done|]. exists o. split; [lia|done].
Qed.

End LayerLoop.

(** ** decodeSubChunk *)

Section DecodeSubChunk.

Variable this : ChunkDecoder.
Variable payload : list byte.

Let len := Buffer.length payload.

Lemma decodeSubChunk_overflow offset yLevel :
  len - 1 <= offset ->
  decodeSubChunk this payload offset yLevel
  = Throw "Buffer overflow while reading subchunk".
Proof.
  intros Ho. unfold decodeSubChunk.
  by destruct (Z.leb_spec (Buffer.length payload - 1) offset); [|subst len; lia].
Qed.

Lemma decodeSubChunk_inv offset yLevel r :
  decodeSubChunk this payload offset yLevel = Return r ->
  exists version layerCount,
    0 <= offset < len - 1
    /\ Buffer.readInt8 payload offset = Some version
    /\ Buffer.readInt8 payload (offset + 1) = Some layerCount
    /\ r = {| data :=
                {| SubChunk.y := yLevel;
                   SubChunk.version := version;
                   SubChunk.layers :=
                     (layerLoop this payload layerCount (Z.to_nat layerCount)
                        0 (offset + 1 + 1) []).1 |};
              newOffset :=
                (layerLoop this payload layerCount (Z.to_nat layerCount)
                   0 (offset + 1 + 1) []).2 |}.
Proof.
  unfold decodeSubChunk.
  destruct (Z.leb_spec (Buffer.length payload - 1) offset) as [|Hlt]; [done|].
  destruct (Buffer.readInt8 payload offset) as [version|] eqn:Hv; [|done].
  destruct (Buffer.readInt8 payload (offset + 1)) as [layerCount|] eqn:Hl; [|done].
  simpl. destruct (layerLoop _ _ _ _ _ _ _) as [layers o] eqn:Hloop.
  intros [= <-]. exists version, layerCount.
  apply readInt8_Some in Hv as [? _]. rewrite Hloop. simpl.
  repeat split; try done; subst len; lia.
Qed.

(** With the header inside the buffer the sub-chunk is always returned. *)
Lemma decodeSubChunk_Return offset yLevel :
  0 <= offset < len - 1 ->
  exists r, decodeSubChunk this payload offset yLevel = Return r.
Proof.
  intros [H0 H1]. unfold decodeSubChunk.
  destruct (Z.leb_spec (Buffer.length payload - 1) offset); [subst len; lia|].
  destruct (readInt8_is_Some payload offset) as [v ->]; [subst len; lia|].
  destruct (readInt8_is_Some payload (offset + 1)) as [l ->]; [subst len; lia|].
  simpl. destruct (layerLoop _ _ _ _ _ _ _). by eexists.
Qed.

Lemma decodeSubChunk_offset offset yLevel r :
  decodeSubChunk this payload offset yLevel = Return r ->
  offset + 2 <= newOffset r <= len.
Proof.
  intros (v & l & Ho & _ & _ & ->)%decodeSubChunk_inv. simpl.
  pose proof (layerLoop_offset this payload l (Z.to_nat l) 0 (offset + 1 + 1)) as H.
  fold len in H. lia.
Qed.

Lemma decodeSubChunk_y offset yLevel r :
  decodeSubChunk this payload offset yLevel = Return r ->
  SubChunk.y (data r) = yLevel.
Proof. by intros (v & l & _ & _ & _ & ->)%decodeSubChunk_inv. Qed.

End DecodeSubChunk.

(** ** The sub-chunk loop *)

Section SubChunkLoop.

Variable this : ChunkDecoder.
Variable payload : list byte.
Variable subChunkCount : Z.

Let len := Buffer.length payload.

Lemma subChunkLoop_unfold fuel y offset subChunks :
  subChunkLoop this payload subChunkCount (S fuel) y offset subChunks
  = if (y <? subChunkCount) && (offset <? len - 1) then
      bind (decodeSubChunk this payload offset y) (fun subChunkData =>
        subChunkLoop this payload subChunkCount fuel (y + 1)
          (newOffset subChunkData) (subChunks ++ [data subChunkData]))
    else Return (subChunks, offset).
Proof. reflexivity. Qed.

Lemma subChunkLoop_app fuel : forall y offset subChunks,
  subChunkLoop this payload subChunkCount fuel y offset subChunks
  = bind (subChunkLoop this payload subChunkCount fuel y offset [])
      (fun r => Return (subChunks ++ r.1, r.2)).
Proof.
  induction fuel as [|fuel IH]; intros y offset subChunks.
  - simpl. by rewrite app_nil_r.
  - rewrite !subChunkLoop_unfold.
    destruct ((y <? subChunkCount) && (offset <? len - 1));
      [|simpl; by rewrite app_nil_r].
    destruct (decodeSubChunk this payload offset y) as [r|m]; [|done].
    simpl. rewrite IH. rewrite (IH _ _ [data r]).
    destruct (subChunkLoop this payload subChunkCount fuel (y + 1) (newOffset r) [])
      as [[scs o]|m]; [|done].
    simpl. by rewrite <- app_assoc.
Qed.

(** At most [subChunkCount - y] iterations are needed. *)
Lemma subChunkLoop_fuel fuel : forall y offset subChunks,
  (Z.to_nat (subChunkCount - y) <= fuel)%nat ->
  subChunkLoop this payload subChunkCount (S fuel) y offset subChunks
  = subChunkLoop this payload subChunkCount fuel y offset subChunks.
Proof.
  induction fuel as [|fuel IH]; intros y offset subChunks Hfuel.
  - rewrite subChunkLoop_unfold. simpl.
    destruct (Z.ltb_spec y subChunkCount); [lia|done].
  - rewrite (subChunkLoop_unfold (S fuel)),
      (subChunkLoop_unfold fuel y offset subChunks).
    destruct (Z.ltb_spec y subChunkCount); [|done].
    destruct (offset <? len - 1); [|done].
    simpl. destruct (decodeSubChunk this payload offset y) as [r|m]; [|done].
    simpl. apply IH. lia.
Qed.

(** The loop never throws: its guard is the header check of
    [decodeSubChunk]. It returns the sub-chunks of the slots [y], [y + 1],
    ... in order, each decoded at a cursor where the header fits; with
    enough fuel it stops short of [subChunkCount] only on an exhausted
    buffer. *)
Lemma subChunkLoop_Return fuel : forall y offset,
  0 <= offset ->
  exists subChunks offset',
    subChunkLoop this payload subChunkCount fuel y offset [] = Return (subChunks, offset')
    /\ offset <= offset'
    /\ Forall (subChunkReadAt this payload offset) subChunks
    /\ (forall (k : nat) sc, subChunks !! k = Some sc -> SubChunk.y sc = y + Z.of_nat k)
    /\ Z.of_nat (length subChunks) <= Z.max 0 (subChunkCount - y)
    /\ ((Z.to_nat (subChunkCount - y) <= fuel)%nat ->
        Z.of_nat (length subChunks) < subChunkCount - y -> len - 1 <= offset').
Proof.
  induction fuel as [|fuel IH]; intros y offset H0.
  - exists [], offset. simpl. repeat split; try done; try lia.
  - rewrite subChunkLoop_unfold.
    destruct (Z.ltb_spec y subChunkCount) as [Hy|Hy]; simpl;
      [|exists [], offset; repeat split; try done; simpl; lia].
    destruct (Z.ltb_spec offset (len - 1)) as [Ho|Ho]; simpl;
      [|exists [], offset; repeat split; try done; simpl; lia].
    destruct (decodeSubChunk_Return this payload offset y) as [r Hr]; [done|].
    rewrite Hr. simpl. rewrite subChunkLoop_app.
    pose proof (decodeSubChunk_offset _ _ _ _ _ Hr) as Hnew. fold len in Hnew.
    destruct (IH (y + 1) (newOffset r)) as (scs & o' & -> & Hle & Hall & Hys & Hlen & Hstop);
      [lia|].
    exists (data r :: scs), o'. simpl. repeat split; try done; try lia.
    + constructor.
      * exists offset, r. split; [done|].
        by rewrite (decodeSubChunk_y _ _ _ _ _ Hr).
      * eapply Forall_impl; [exact Hall|].
        intros sc (o & r' & Hor & Hd & He). exists o, r'. split; [lia|done].
    + intros [|k] sc; simpl.
      * intros [= <-]. rewrite (decodeSubChunk_y _ _ _ _ _ Hr). lia.
      * intros Hk%Hys. lia.
Qed.

End SubChunkLoop.

Arguments layerLoop : simpl never.
Arguments subChunkLoop : simpl never.

(** ** What a decode depends on

    The loops read the buffer only through the cursor, which stays below
    [length - 1] at every block read: two buffers that agree from the start
    cursor up to the byte before the last decode alike. *)

Section Agree.

Variable this : ChunkDecoder.
Variables p q : list byte.
Variable lo : Z.
Hypothesis Hagree : agreeFrom lo p q.

Lemma agree_length : Buffer.length q = Buffer.length p.
Proof. destruct Hagree as [Hlen _]. unfold Buffer.length. by rewrite Hlen. Qed.

Lemma agree_readUInt8 o :
  lo <= o < Buffer.length p - 1 -> Buffer.readUInt8 p o = Buffer.readUInt8 q o.
Proof.
  intros Ho. destruct Hagree as [_ Hget]. unfold Buffer.readUInt8.
  by rewrite (Hget o Ho).
Qed.

Lemma agree_readInt8 o :
  lo <= o < Buffer.length p - 1 -> Buffer.readInt8 p o = Buffer.readInt8 q o.
Proof. intros Ho. unfold Buffer.readInt8. by rewrite agree_readUInt8. Qed.

Lemma blockLoop_agree fuel : forall i offset blocks,
  lo <= offset ->
  blockLoop this p fuel i offset blocks = blockLoop this q fuel i offset blocks.
Proof.
  induction fuel as [|fuel IH]; intros i offset blocks Hlo; [done|].
  rewrite !blockLoop_unfold, agree_length.
  destruct (i <? 4096); [|done].
  destruct (Z.ltb_spec offset (Buffer.length p - 1)) as [Ho|Ho]; [|done].
  simpl. rewrite <- agree_readUInt8 by lia.
  destruct (Buffer.readUInt8 p offset); [|done].
  apply IH. lia.
Qed.

Lemma layerLoop_agree layerCount fuel : forall layer offset layers,
  lo <= offset ->
  layerLoop this p layerCount fuel layer offset layers
  = layerLoop this q layerCount fuel layer offset layers.
Proof.
  induction fuel as [|fuel IH]; intros layer offset layers Hlo; [done|].
  rewrite !layerLoop_unfold, agree_length.
  destruct ((layer <? layerCount) && (offset <? Buffer.length p - 1)); [|done].
  simpl. rewrite <- (blockLoop_agree blockFuel 0 offset []) by done.
  apply IH. pose proof (blockLoop_offset this p blockFuel 0 offset). lia.
Qed.

(** On an exhausted buffer the layer loop does nothing, whatever its bound. *)
Lemma layerLoop_exhausted payload layerCount fuel layer offset layers :
  Buffer.length payload - 1 <= offset ->
  layerLoop this payload layerCount fuel layer offset layers = (layers, offset).
Proof.
  intros Ho. destruct fuel as [|fuel]; [done|].
  rewrite layerLoop_unfold.
  destruct (Z.ltb_spec offset (Buffer.length payload - 1)); [lia|].
  by rewrite andb_false_r.
Qed.

Lemma decodeSubChunk_agree offset yLevel :
  0 <= lo <= offset ->
  decodeSubChunk this p offset yLevel = decodeSubChunk this q offset yLevel.
Proof.
  intros Hlo. unfold decodeSubChunk. rewrite agree_length.
  destruct (Z.leb_spec (Buffer.length p - 1) offset) as [Ho|Ho]; [done|].
  rewrite <- agree_readInt8 by lia.
  destruct (Buffer.readInt8 p offset) as [version|]; simpl; [|done].
  destruct (Z.lt_ge_cases (offset + 1) (Buffer.length p - 1)) as [H1|H1].
  - rewrite <- agree_readInt8 by lia.
    destruct (Buffer.readInt8 p (offset + 1)) as [layerCount|]; simpl; [|done].
    by rewrite layerLoop_agree by lia.
  - destruct (readInt8_is_Some p (offset + 1)) as [lp ->]; [lia|].
    destruct (readInt8_is_Some q (offset + 1)) as [lq ->];
      [rewrite agree_length; lia|].
    simpl. rewrite !layerLoop_exhausted; [done|rewrite agree_length; lia|lia].
Qed.

Lemma subChunkLoop_agree subChunkCount fuel : forall y offset subChunks,
  0 <= lo <= offset ->
  subChunkLoop this p subChunkCount fuel y offset subChunks
  = subChunkLoop this q subChunkCount fuel y offset subChunks.
Proof.
  induction fuel as [|fuel IH]; intros y offset subChunks Hlo; [done|].
  rewrite !subChunkLoop_unfold, agree_length.
  destruct ((y <? subChunkCount) && (offset <? Buffer.length p - 1)); [|done].
  rewrite <- decodeSubChunk_agree by done.
  destruct (decodeSubChunk this p offset y) as [r|m] eqn:Hr; simpl; [|done].
  apply IH. pose proof (decodeSubChunk_offset _ _ _ _ _ Hr). lia.
Qed.

End Agree.

(** Buffers with the same first byte that agree from offset 2 up to the byte
    before the last decode to the same chunk and leave the same decoder. *)
Lemma decodeChunk_agree this p q chunkX chunkZ :
  agreeFrom 2 p q ->
  Buffer.get p 0 = Buffer.get q 0 ->
  decodeChunk this (Some p) chunkX chunkZ = decodeChunk this (Some q) chunkX chunkZ.
Proof.
  intros Hagree H0. unfold decodeChunk, decodeChunkTry.
  rewrite (agree_length p q 2 Hagree).
  destruct (Z.ltb_spec (Buffer.length p) 2) as [Hlen|Hlen]; [done|].
  unfold Buffer.readInt8 at 1 3, Buffer.readUInt8. rewrite <- H0.
  destruct (Buffer.get p 0) as [b0|]; simpl; [|done].
  destruct (readInt8_is_Some p (0 + 1)) as [vp ->]; [lia|].
  destruct (readInt8_is_Some q (0 + 1)) as [vq ->];
    [rewrite (agree_length p q 2 Hagree); lia|].
  simpl. by rewrite (subChunkLoop_agree this p q 2 Hagree) by lia.
Qed.

(** In particular the last byte of a payload has no influence on the decode. *)
Lemma decodeChunk_last_byte this (p q : list byte) chunkX chunkZ :
  length p = length q ->
  2 <= Buffer.length p ->
  (forall i : nat, (i + 1 < length p)%nat -> p !! i = q !! i) ->
  decodeChunk this (Some p) chunkX chunkZ = decodeChunk this (Some q) chunkX chunkZ.
Proof.
  intros Hlen Hge Hsame. unfold Buffer.length in Hge.
  apply decodeChunk_agree.
  - split; [done|]. intros o Ho. unfold Buffer.get, Buffer.length in *.
    destruct (Z.leb_spec 0 o); [|done]. apply Hsame. lia.
  - unfold Buffer.get. simpl. apply Hsame. lia.
Qed.

(** ** The fuel handed to the loops is enough *)

Lemma blockFuel_eq : blockFuel = Z.to_nat 4096.
Proof. vm_compute. reflexivity. Qed.

Lemma blockLoop_total this payload k offset blocks :
  blockLoop this payload (blockFuel + k) 0 offset blocks
  = blockLoop this payload blockFuel 0 offset blocks.
Proof.
  induction k as [|k IH]; [by rewrite Nat.add_0_r|].
  rewrite Nat.add_succ_r, blockLoop_fuel; [done|].
  rewrite blockFuel_eq. lia.
Qed.

Lemma layerLoop_total this payload layerCount k offset layers :
  layerLoop this payload layerCount (Z.to_nat layerCount + k) 0 offset layers
  = layerLoop this payload layerCount (Z.to_nat layerCount) 0 offset layers.
Proof.
  induction k as [|k IH]; [by rewrite Nat.add_0_r|].
  rewrite Nat.add_succ_r, layerLoop_fuel; [done|]. lia.
Qed.

Lemma subChunkLoop_total this payload subChunkCount k offset subChunks :
  subChunkLoop this payload subChunkCount (Z.to_nat subChunkCount + k) 0 offset subChunks
  = subChunkLoop this payload subChunkCount (Z.to_nat subChunkCount) 0 offset subChunks.
Proof.
  induction k as [|k IH]; [by rewrite Nat.add_0_r|].
  rewrite Nat.add_succ_r, subChunkLoop_fuel; [done|]. lia.
Qed.

(** ** Coordinates *)

Lemma localYOf_nonneg y : 0 <= y -> localYOf y = y mod 16 /\ 0 <= localYOf y <= 15.
Proof.
  intros Hy. unfold localYOf. rewrite Z.rem_mod_nonneg by lia.
  pose proof (Z.mod_pos_bound y 16). lia.
Qed.

(** [%] and the mathematical [mod] part ways exactly on the negative
    coordinates that are not multiples of 16. *)
Lemma localYOf_mod y : localYOf y = y mod 16 <-> 0 <= y \/ y mod 16 = 0.
Proof. unfold localYOf. Z.to_euclidean_division_equations. lia. Qed.

(** C3. For every linear index [i] in [0, 4095] the local coordinates that
    [createBlockData] derives from [i] are each in [0, 15], the block index
    that [getBlockAt] forms from them is [i] again, and they are the only
    coordinates in range whose block index is [i]: the two transforms are
    inverse to each other on this domain. *)
Theorem C3_index_roundtrip this blockId i :
  0 <= i <= 4095 ->
  let b := createBlockData this blockId i in
  blockIndexOf (Block.y b) (Block.x b) (Block.z b) = i
  /\ (0 <= Block.x b <= 15 /\ 0 <= Block.y b <= 15 /\ 0 <= Block.z b <= 15)
  /\ forall x y z,
       0 <= x <= 15 -> 0 <= y <= 15 -> 0 <= z <= 15 ->
       blockIndexOf y x z = i ->
       (x, y, z) = (Block.x b, Block.y b, Block.z b).
Proof.
  intros Hi. simpl. unfold blockIndexOf.
  rewrite !Z.rem_mod_nonneg by lia.
  repeat split; try (Z.to_euclidean_division_equations; lia).
  intros x y z Hx Hy Hz Hxyz.
  assert (y = i / 256) as -> by (Z.to_euclidean_division_equations; lia).
  assert (z = i mod 256 / 16) as -> by (Z.to_euclidean_division_equations; lia).
  assert (x = i mod 16) as -> by (Z.to_euclidean_division_equations; lia).
  done.
Qed.

Lemma C3_index_roundtrip_witness :
  let b := createBlockData constructor 7 4095 in
  blockIndexOf (Block.y b) (Block.x b) (Block.z b) = 4095
  /\ (0 <= Block.x b <= 15 /\ 0 <= Block.y b <= 15 /\ 0 <= Block.z b <= 15)
  /\ forall x y z,
       0 <= x <= 15 -> 0 <= y <= 15 -> 0 <= z <= 15 ->
       blockIndexOf y x z = 4095 ->
       (x, y, z) = (Block.x b, Block.y b, Block.z b).
Proof. apply (C3_index_roundtrip constructor 7 4095). lia. Defined.

(** A chunk object built by hand, with a sub-chunk in slot [-1], is not
    something [decodeChunk] produces. On it the query at height [-1] finds
    the slot and forms the block index from [-1 % 16 = -1]. *)
Example getBlockAt_negative_slot :
  let chunk :=
    {| Chunk.x := 0; Chunk.z := 0;
       Chunk.subChunks :=
         [ {| SubChunk.y := -1; SubChunk.version := 0; SubChunk.layers := [] |} ] |} in
  subChunkIndexOf (-1) = -1
  /\ localYOf (-1) = -1
  /\ (-1) mod 16 = 15
  /\ getBlockAt chunk 0 (-1) 0 = Return (Some (airSentinel (-256) 0 (-1) 0))
  /\ blockIndexOf ((-1) mod 16) 0 0 = 3840.
Proof. vm_compute. repeat split. Qed.

(** ** getBlockAt *)

Lemma find_slot_None (subChunks : list SubChunk.t) slot :
  Forall (fun sc => SubChunk.y sc <> slot) subChunks ->
  find (fun sc => SubChunk.y sc =? slot) subChunks = None.
Proof.
  induction 1 as [|sc subChunks Hsc _ IH]; [done|].
  simpl. by destruct (Z.eqb_spec (SubChunk.y sc) slot).
Qed.

Lemma getBlockAt_in_range chunk x y z :
  0 <= x <= 15 -> 0 <= z <= 15 ->
  getBlockAt chunk x y z
  = match find (fun sc => SubChunk.y sc =? subChunkIndexOf y) (Chunk.subChunks chunk) with
    | None => Return None
    | Some subChunk =>
        match findBlock (SubChunk.layers subChunk) (blockIndexOf (localYOf y) x z) with
        | Some block => Return (Some block)
        | None => Return (Some (airSentinel (blockIndexOf (localYOf y) x z) x y z))
        end
    end.
Proof.
  intros Hx Hz. unfold getBlockAt.
  destruct (Z.ltb_spec x 0), (Z.ltb_spec 15 x), (Z.ltb_spec z 0), (Z.ltb_spec 15 z);
    try lia.
  done.
Qed.

(** C1, as stated, fails on the chunk decoded from the two-byte payload
    [00 08]: it has no sub-chunk at all, and the query at [(0, 0, 0)] returns
    [null], not the air sentinel. *)
Lemma C1_counterexample :
  let chunk := {| Chunk.x := 2; Chunk.z := 3; Chunk.subChunks := [] |} in
  (decodeChunk constructor (Some [x00; x08]) 2 3).1 = Return chunk
  /\ Forall (fun sc => SubChunk.y sc <> 0 / 16) (Chunk.subChunks chunk)
  /\ getBlockAt chunk 0 0 0 = Return None
  /\ getBlockAt chunk 0 0 0
     <> Return (Some (airSentinel (blockIndexOf (localYOf 0) 0 0) 0 0 0)).
Proof. vm_compute. repeat split; [constructor|discriminate]. Qed.

(** C1, amended. For every chunk, every [x], [z] in [0, 15] and every integer
    [y]: when no sub-chunk of the chunk has [y] equal to [floor (y / 16)] the
    query returns [null]; the air sentinel
    [{index: blockIndex, id: 0, name: "air", x, y, z}] is what it returns when
    the first sub-chunk of that slot holds no block at [blockIndex] in any
    layer. *)
Theorem C1_missing_subchunk chunk x y z :
  0 <= x <= 15 -> 0 <= z <= 15 ->
  (Forall (fun sc => SubChunk.y sc <> y / 16) (Chunk.subChunks chunk) ->
   getBlockAt chunk x y z = Return None)
  /\ (forall subChunk,
        find (fun sc => SubChunk.y sc =? y / 16) (Chunk.subChunks chunk) = Some subChunk ->
        findBlock (SubChunk.layers subChunk) (blockIndexOf (localYOf y) x z) = None ->
        getBlockAt chunk x y z
        = Return (Some (airSentinel (blockIndexOf (localYOf y) x z) x y z))).
Proof.
  intros Hx Hz. rewrite getBlockAt_in_range by done. unfold subChunkIndexOf. split.
  - intros Hnone. by rewrite find_slot_None.
  - intros subChunk -> Hblock. by rewrite Hblock.
Qed.

Lemma C1_missing_subchunk_witness :
  let empty := {| Chunk.x := 2; Chunk.z := 3; Chunk.subChunks := [] |} in
  let sc := {| SubChunk.y := 2; SubChunk.version := 1; SubChunk.layers := [] |} in
  let chunk := {| Chunk.x := 2; Chunk.z := 3; Chunk.subChunks := [sc] |} in
  getBlockAt empty 5 40 7 = Return None
  /\ getBlockAt chunk 5 40 7 = Return (Some (airSentinel 2165 5 40 7)).
Proof.
  intros empty sc chunk. split.
  - apply (proj1 (C1_missing_subchunk empty 5 40 7 ltac:(lia) ltac:(lia))).
    constructor.
  - apply (proj2 (C1_missing_subchunk chunk 5 40 7 ltac:(lia) ltac:(lia)) sc);
      reflexivity.
Defined.

(** ** decodeChunk on a missing or too short payload *)

(** C4. For every payload that is absent or shorter than two bytes, and every
    [(chunkX, chunkZ)], [decodeChunk] throws the error "Invalid chunk payload:
    too short" wrapped with the coordinates of the chunk, and leaves the
    decoder, its chunk cache included, as it was. *)
Theorem C4_invalid_payload this payload chunkX chunkZ :
  match payload with
  | None => True
  | Some buffer => Buffer.length buffer < 2
  end ->
  decodeChunk this payload chunkX chunkZ
  = (Throw ("Failed to decode chunk at " +:+ pretty chunkX +:+ "," +:+ pretty chunkZ
              +:+ ": Invalid chunk payload: too short"),
     this)
  /\ getLastDecodedChunk (decodeChunk this payload chunkX chunkZ).2 chunkX chunkZ
     = getLastDecodedChunk this chunkX chunkZ.
Proof.
  intros Hshort. unfold decodeChunk, decodeChunkTry.
  destruct payload as [buffer|]; [|done].
  by destruct (Z.ltb_spec (Buffer.length buffer) 2); [|lia].
Qed.

Lemma C4_invalid_payload_witness :
  decodeChunk constructor (Some [x05]) (-3) 12
  = (Throw "Failed to decode chunk at -3,12: Invalid chunk payload: too short",
     constructor)
  /\ getLastDecodedChunk (decodeChunk constructor (Some [x05]) (-3) 12).2 (-3) 12
     = getLastDecodedChunk constructor (-3) 12.
Proof.
  apply (C4_invalid_payload constructor (Some [x05]) (-3) 12).
  vm_compute. reflexivity.
Defined.

(** ** The mapping table *)

Lemma setBlockMappings_snoc this itemstates state :
  setBlockMappings this (itemstates ++ [state])
  = setBlockMapping (setBlockMappings this itemstates) state.
Proof. unfold setBlockMappings. by rewrite foldl_app. Qed.

Lemma setBlockMappings_chunkCache this itemstates :
  chunkCache (setBlockMappings this itemstates) = chunkCache this.
Proof.
  induction itemstates as [|state itemstates IH] using rev_ind; [done|].
  rewrite setBlockMappings_snoc. unfold setBlockMapping.
  by destruct (runtime_id state).
Qed.

Lemma setBlockMappings_lookup this itemstates rid :
  blockMappings (setBlockMappings this itemstates) !! rid
  = match lastNameFor rid itemstates with
    | Some n => Some n
    | None => blockMappings this !! rid
    end.
Proof.
  induction itemstates as [|state itemstates IH] using rev_ind; [done|].
  rewrite setBlockMappings_snoc. unfold lastNameFor, setBlockMapping.
  rewrite filter_app.
  destruct (runtime_id state) as [r|] eqn:Hr.
  - destruct (decide (r = rid)) as [->|Hne].
    + rewrite (filter_cons_True _ state) by done.
      rewrite filter_nil, last_snoc. simpl. by rewrite lookup_insert_eq.
    + rewrite (filter_cons_False _ state) by congruence.
      rewrite filter_nil, app_nil_r. simpl. by rewrite lookup_insert_ne.
  - rewrite (filter_cons_False _ state) by congruence.
    by rewrite filter_nil, app_nil_r.
Qed.

Lemma setBlockMappings_skip this before state after :
  runtime_id state = None ->
  setBlockMappings this (before ++ state :: after)
  = setBlockMappings this (before ++ after).
Proof.
  intros Hnone. unfold setBlockMappings. rewrite !foldl_app. simpl.
  unfold setBlockMapping at 2. by rewrite Hnone.
Qed.

(** C6, as stated, fails for a name that is the empty string: the entry is
    stored in the table, yet block creation resolves the id to the
    placeholder, because [||] takes the empty string for a missing value. *)
Lemma C6_counterexample :
  let this := setBlockMappings constructor [ {| name := EmptyString; runtime_id := Some 2 |} ] in
  blockMappings this !! 2 = Some EmptyString
  /\ Block.name (createBlockData this 2 0) = "unknown_block_2"
  /\ Some (Block.name (createBlockData this 2 0)) <> blockMappings this !! 2.
Proof. vm_compute. repeat split. discriminate. Qed.

(** C6, amended. After [setBlockMappings] the table maps every runtime id to
    the name of the last entry of the sequence carrying that id, and is
    unchanged at the ids no entry carries; an entry without [runtime_id] has
    no effect, and the chunk cache is untouched. During block creation a
    runtime id resolves to its table entry when there is one and it is not
    the empty string, and to "unknown_block_" followed by the id otherwise. *)
Theorem C6_block_names this itemstates :
  (forall rid,
     blockMappings (setBlockMappings this itemstates) !! rid
     = match lastNameFor rid itemstates with
       | Some n => Some n
       | None => blockMappings this !! rid
       end)
  /\ (forall before state after,
        itemstates = before ++ state :: after ->
        runtime_id state = None ->
        setBlockMappings this itemstates = setBlockMappings this (before ++ after))
  /\ chunkCache (setBlockMappings this itemstates) = chunkCache this
  /\ (forall blockId index,
        Block.name (createBlockData this blockId index)
        = match blockMappings this !! blockId with
          | Some n =>
              if bool_decide (n = EmptyString) then "unknown_block_" +:+ pretty blockId else n
          | None => "unknown_block_" +:+ pretty blockId
          end).
Proof.
  repeat split.
  - apply setBlockMappings_lookup.
  - intros before state after -> Hnone. by apply setBlockMappings_skip.
  - apply setBlockMappings_chunkCache.
Qed.

Lemma C6_block_names_witness :
  let states :=
    [ {| name := "minecraft:dirt"; runtime_id := Some 2 |};
      {| name := "minecraft:void"; runtime_id := None |};
      {| name := "minecraft:stone"; runtime_id := Some 2 |} ] in
  let this := setBlockMappings constructor states in
  blockMappings this !! 2 = Some "minecraft:stone"
  /\ this = setBlockMappings constructor
              [ {| name := "minecraft:dirt"; runtime_id := Some 2 |};
                {| name := "minecraft:stone"; runtime_id := Some 2 |} ]
  /\ Block.name (createBlockData this 2 5) = "minecraft:stone"
  /\ Block.name (createBlockData this 3 5) = "unknown_block_3".
Proof.
  intros states this. split; [|split; [|split]].
  - apply (proj1 (C6_block_names constructor states) 2).
  - apply (proj1 (proj2 (C6_block_names constructor states))
             [ {| name := "minecraft:dirt"; runtime_id := Some 2 |} ]
             {| name := "minecraft:void"; runtime_id := None |}
             [ {| name := "minecraft:stone"; runtime_id := Some 2 |} ]);
      reflexivity.
  - apply (proj2 (proj2 (proj2 (C6_block_names this states))) 2 5).
  - apply (proj2 (proj2 (proj2 (C6_block_names this states))) 3 5).
Defined.

(** ** Layers of a decoded sub-chunk *)

Lemma StronglySorted_lt_NoDup (l : list Z) : StronglySorted Z.lt l -> NoDup l.
Proof.
  induction 1 as [|a l _ IH Hall]; constructor; [|done].
  intros Hin. rewrite Forall_forall in Hall. specialize (Hall a Hin). lia.
Qed.

Lemma layerReadAt_wellFormed this payload layerCount layer offset l :
  layerReadAt this payload layerCount layer offset l -> layerWellFormed l.
Proof.
  intros (_ & Hne & o & _ & Hl). unfold layerWellFormed. rewrite Hl in *.
  split; [done|]. split; [apply blockLoop_sorted|].
  split; [apply StronglySorted_lt_NoDup, blockLoop_sorted|].
  eapply Forall_impl; [apply blockLoop_blocks|].
  intros b (_ & Hid & _). lia.
Qed.

(** C7. Every layer of a sub-chunk returned by [decodeSubChunk] holds at
    least one block, its blocks are in strictly ascending index order without
    a repeated index, and none of its blocks has the id 0. *)
Theorem C7_layers_well_formed this payload offset yLevel r :
  decodeSubChunk this payload offset yLevel = Return r ->
  Forall layerWellFormed (SubChunk.layers (data r)).
Proof.
  intros (version & layerCount & _ & _ & _ & ->)%decodeSubChunk_inv. simpl.
  eapply Forall_impl; [apply layerLoop_layers|].
  intros l. apply layerReadAt_wellFormed.
Qed.

Lemma C7_layers_well_formed_witness :
  exists r,
    decodeSubChunk constructor [x01; x02; x00; x05; x07; x00; x00; x09; x00] 0 3 = Return r
    /\ length (SubChunk.layers (data r)) = 1%nat
    /\ Forall layerWellFormed (SubChunk.layers (data r)).
Proof.
  eexists. split; [vm_compute; reflexivity|]. split; [reflexivity|].
  apply (C7_layers_well_formed constructor
           [x01; x02; x00; x05; x07; x00; x00; x09; x00] 0 3).
  vm_compute. reflexivity.
Defined.

(** ** Where the blocks of a decoded sub-chunk come from *)

Lemma decodeSubChunk_blocks this payload offset yLevel r l b :
  decodeSubChunk this payload offset yLevel = Return r ->
  l ∈ SubChunk.layers (data r) ->
  b ∈ Layer.blocks l ->
  exists o,
    offset + 2 + Block.index b <= o < Buffer.length payload - 1
    /\ Buffer.readUInt8 payload o = Some (Block.id b).
Proof.
  intros (version & layerCount & _ & _ & _ & ->)%decodeSubChunk_inv Hl Hb.
  simpl in Hl.
  pose proof (layerLoop_layers this payload layerCount (Z.to_nat layerCount)
                0 (offset + 1 + 1)) as Hall.
  rewrite Forall_forall in Hall.
  destruct (Hall l Hl) as (_ & _ & o & Ho & Hblocks).
  rewrite Hblocks in Hb.
  pose proof (blockLoop_blocks this payload blockFuel 0 o) as Hread.
  rewrite Forall_forall in Hread.
  destruct (Hread b Hb) as (Hi & _ & _ & Hlt & Hbyte).
  exists (o + (Block.index b - 0)). split; [lia|done].
Qed.

(** ** decodeChunk on a payload of at least two bytes *)

Lemma decodeChunk_Return this payload chunkX chunkZ :
  2 <= Buffer.length payload ->
  exists subChunkCount subChunks offset,
    Buffer.readInt8 payload 0 = Some subChunkCount
    /\ subChunkLoop this payload subChunkCount (Z.to_nat subChunkCount) 0 2 []
       = Return (subChunks, offset)
    /\ decodeChunk this (Some payload) chunkX chunkZ
       = (Return {| Chunk.x := chunkX; Chunk.z := chunkZ; Chunk.subChunks := subChunks |},
          cacheChunk this
            {| Chunk.x := chunkX; Chunk.z := chunkZ; Chunk.subChunks := subChunks |}).
Proof.
  intros Hlen.
  destruct (readInt8_is_Some payload 0) as [subChunkCount Hcount]; [lia|].
  destruct (readInt8_is_Some payload (0 + 1)) as [storageVersion Hversion]; [lia|].
  destruct (subChunkLoop_Return this payload subChunkCount (Z.to_nat subChunkCount) 0 2)
    as (subChunks & offset & Hloop & _); [lia|].
  exists subChunkCount, subChunks, offset. split; [done|]. split; [done|].
  unfold decodeChunk, decodeChunkTry.
  destruct (Z.ltb_spec (Buffer.length payload) 2); [lia|].
  rewrite Hcount. simpl. rewrite Hversion. simpl.
  change (0 + 1 + 1) with 2. by rewrite Hloop.
Qed.

Lemma decodeChunk_inv this payload chunkX chunkZ chunk this' :
  decodeChunk this (Some payload) chunkX chunkZ = (Return chunk, this') ->
  2 <= Buffer.length payload
  /\ this' = cacheChunk this chunk
  /\ Chunk.x chunk = chunkX /\ Chunk.z chunk = chunkZ
  /\ exists subChunkCount offset,
       Buffer.readInt8 payload 0 = Some subChunkCount
       /\ subChunkLoop this payload subChunkCount (Z.to_nat subChunkCount) 0 2 []
          = Return (Chunk.subChunks chunk, offset).
Proof.
  intros Hdec.
  destruct (Z.lt_ge_cases (Buffer.length payload) 2) as [Hlt|Hge].
  - exfalso. revert Hdec. unfold decodeChunk, decodeChunkTry.
    by destruct (Z.ltb_spec (Buffer.length payload) 2); [|lia].
  - destruct (decodeChunk_Return this payload chunkX chunkZ)
      as (subChunkCount & subChunks & offset & Hcount & Hloop & Heq); [lia|].
    rewrite Heq in Hdec. injection Hdec as <- <-.
    split; [lia|]. repeat split. by exists subChunkCount, offset.
Qed.

(** C2, as stated, fails on the payload [05 00 01 00 00]: it declares five
    sub-chunks and supplies one. When the loop comes to the second slot the
    cursor is 4, where [decodeSubChunk] would throw for want of a header; the
    call still returns the chunk with the one sub-chunk and throws nothing. *)
Lemma C2_counterexample :
  let payload := [x05; x00; x01; x00; x00] in
  let first := {| SubChunk.y := 0; SubChunk.version := 1; SubChunk.layers := [] |} in
  2 <= Buffer.length payload
  /\ Buffer.readInt8 payload 0 = Some 5
  /\ subChunkLoop constructor payload 5 (Z.to_nat 5) 0 2 [] = Return ([first], 4)
  /\ Buffer.length payload - 1 <= 4
  /\ decodeSubChunk constructor payload 4 1
     = Throw "Buffer overflow while reading subchunk"
  /\ (decodeChunk constructor (Some payload) 0 0).1
     = Return {| Chunk.x := 0; Chunk.z := 0; Chunk.subChunks := [first] |}
  /\ (decodeChunk constructor (Some payload) 0 0).1
     <> Throw (decodeFailure 0 0 "Buffer overflow while reading subchunk").
Proof. vm_compute. repeat split; discriminate. Qed.

Lemma subChunkLoop_chain this payload subChunkCount fuel :
  forall y offset subChunks offset',
  subChunkLoop this payload subChunkCount fuel y offset [] = Return (subChunks, offset') ->
  subChunkChain this payload y offset subChunks offset'.
Proof.
  induction fuel as [|fuel IH]; intros y offset subChunks offset' Hloop.
  - injection Hloop as <- <-. constructor.
  - rewrite subChunkLoop_unfold in Hloop.
    destruct (y <? subChunkCount); simpl in Hloop;
      [|injection Hloop as <- <-; constructor].
    destruct (Z.ltb_spec offset (Buffer.length payload - 1)) as [Ho|Ho];
      [|injection Hloop as <- <-; constructor].
    destruct (decodeSubChunk this payload offset y) as [r|m] eqn:Hr; simpl in Hloop;
      [|discriminate].
    rewrite subChunkLoop_app in Hloop.
    destruct (subChunkLoop this payload subChunkCount fuel (y + 1) (newOffset r) [])
      as [[rest o]|m] eqn:Hrest; simpl in Hloop; [|discriminate].
    injection Hloop as <- <-.
    apply chain_step; [done|done|]. by apply IH.
Qed.

(** A chain is fixed by where it starts and where it may stop: at the
    declared count, or before it on an exhausted buffer. *)
Lemma subChunkChain_unique this payload subChunkCount y offset subChunks1 offset1 :
  subChunkChain this payload y offset subChunks1 offset1 ->
  forall subChunks2 offset2,
  subChunkChain this payload y offset subChunks2 offset2 ->
  Z.of_nat (length subChunks1) <= Z.max 0 (subChunkCount - y) ->
  (Z.of_nat (length subChunks1) < subChunkCount - y ->
   Buffer.length payload - 1 <= offset1) ->
  Z.of_nat (length subChunks2) <= Z.max 0 (subChunkCount - y) ->
  (Z.of_nat (length subChunks2) < subChunkCount - y ->
   Buffer.length payload - 1 <= offset2) ->
  subChunks1 = subChunks2 /\ offset1 = offset2.
Proof.
  induction 1 as [y offset|y offset r rest1 offset1 Ho Hr Hchain IH];
    intros subChunks2 offset2 Hchain2 Hlen1 Hstop1 Hlen2 Hstop2.
  - inversion Hchain2 as [|? ? r2 rest2 ? Ho2 Hr2 Hrest2]; subst; [done|].
    simpl in *. lia.
  - inversion Hchain2 as [|? ? r2 rest2 ? Ho2 Hr2 Hrest2]; subst.
    + simpl in *. lia.
    + rewrite Hr in Hr2. injection Hr2 as <-.
      simpl in *.
      destruct (IH rest2 offset2 Hrest2) as [-> ->]; try lia. done.
Qed.

(** C2, amended. For every payload of at least two bytes [decodeChunk]
    returns a chunk and caches it; it never throws. The chunk holds, in slot
    order, what [decodeSubChunk] returns for slot 0 at cursor 2, then for
    slot 1 at the cursor that call handed back, and so on, each at a cursor
    at which the two header bytes are available; it holds at most the
    declared number of sub-chunks and, when fewer, the cursor after the last
    one has reached [length - 1], where [decodeSubChunk] would throw its
    buffer overflow error: the guard of the loop keeps [decodeChunk] from
    calling it there. No other list of sub-chunks fits this description.
    The error is thrown by [decodeSubChunk] itself at any cursor from
    [length - 1] on. *)
Theorem C2_partial_chunk this payload chunkX chunkZ :
  2 <= Buffer.length payload ->
  exists subChunkCount subChunks offset,
    let chunk :=
      {| Chunk.x := chunkX; Chunk.z := chunkZ; Chunk.subChunks := subChunks |} in
    Buffer.readInt8 payload 0 = Some subChunkCount
    /\ decodeChunk this (Some payload) chunkX chunkZ = (Return chunk, cacheChunk this chunk)
    /\ subChunkChain this payload 0 2 subChunks offset
    /\ Z.of_nat (length subChunks) <= Z.max 0 subChunkCount
    /\ (Z.of_nat (length subChunks) < subChunkCount ->
        Buffer.length payload - 1 <= offset
        /\ decodeSubChunk this payload offset (Z.of_nat (length subChunks))
           = Throw "Buffer overflow while reading subchunk")
    /\ (forall subChunks' offset',
          subChunkChain this payload 0 2 subChunks' offset' ->
          Z.of_nat (length subChunks') <= Z.max 0 subChunkCount ->
          (Z.of_nat (length subChunks') < subChunkCount ->
           Buffer.length payload - 1 <= offset') ->
          subChunks' = subChunks /\ offset' = offset)
    /\ (forall (k : nat) sc, subChunks !! k = Some sc -> SubChunk.y sc = Z.of_nat k)
    /\ (forall o y,
          Buffer.length payload - 1 <= o ->
          decodeSubChunk this payload o y = Throw "Buffer overflow while reading subchunk").
Proof.
  intros Hlen.
  destruct (decodeChunk_Return this payload chunkX chunkZ Hlen)
    as (subChunkCount & subChunks & offset & Hcount & Hloop & Hdec).
  exists subChunkCount, subChunks, offset. simpl.
  destruct (subChunkLoop_Return this payload subChunkCount (Z.to_nat subChunkCount) 0 2)
    as (subChunks' & offset' & Hloop' & _ & _ & Hys & Hle & Hstop); [lia|].
  rewrite Hloop in Hloop'. injection Hloop' as <- <-.
  pose proof (subChunkLoop_chain _ _ _ _ _ _ _ _ Hloop) as Hchain.
  assert (Z.of_nat (length subChunks) < subChunkCount ->
          Buffer.length payload - 1 <= offset) as Hstop'
    by (intros Hfew; apply Hstop; lia).
  split; [done|]. split; [done|]. split; [done|]. split; [lia|].
  split; [|split; [|split]].
  - intros Hfew. split; [by apply Hstop'|]. by apply decodeSubChunk_overflow, Hstop'.
  - intros subChunks' offset' Hchain' Hle' Hstop''.
    apply (subChunkChain_unique this payload subChunkCount 0 2 _ _ Hchain' _ _ Hchain);
      lia.
  - intros k sc Hk. rewrite (Hys k sc Hk). lia.
  - intros o y Ho. by apply decodeSubChunk_overflow.
Qed.

Lemma C2_partial_chunk_witness :
  let payload := [x05; x00; x01; x00; x00] in
  let first := {| SubChunk.y := 0; SubChunk.version := 1; SubChunk.layers := [] |} in
  let chunk := {| Chunk.x := 0; Chunk.z := 0; Chunk.subChunks := [first] |} in
  decodeChunk constructor (Some payload) 0 0 = (Return chunk, cacheChunk constructor chunk)
  /\ decodeSubChunk constructor payload 4 1 = Throw "Buffer overflow while reading subchunk".
Proof.
  intros payload first chunk.
  destruct (C2_partial_chunk constructor payload 0 0)
    as (subChunkCount & subChunks & offset & Hcount & Hdec & _ & _ & Hfew & Hunique & _ & _).
  { vm_compute. discriminate. }
  injection Hcount as <-.
  destruct (Hunique [first] 4) as [<- <-].
  - apply (chain_step constructor payload 0 2 {| data := first; newOffset := 4 |} [] 4).
    + reflexivity.
    + reflexivity.
    + apply chain_stop.
  - vm_compute. discriminate.
  - intros _. vm_compute. discriminate.
  - split; [exact Hdec|]. apply Hfew. reflexivity.
Defined.

(** ** No block is read from the last byte *)

(** C10. Every block of a decoded chunk carries the byte read at an offset
    that is at least four past its index and strictly below
    [payload.length - 1]: no block id is read from the final byte or past the
    end of the buffer. In a payload of exactly 2 + 2 + 4096 bytes, whatever
    its last byte, this leaves no offset for index 4095, so the decoded chunk
    has no block with that index. And the final byte is not consumed at all:
    a payload that differs in the final byte only decodes to the same chunk
    and the same decoder. *)
Theorem C10_last_byte_not_a_block this payload chunkX chunkZ chunk this' :
  decodeChunk this (Some payload) chunkX chunkZ = (Return chunk, this') ->
  (forall sc l b,
     sc ∈ Chunk.subChunks chunk -> l ∈ SubChunk.layers sc -> b ∈ Layer.blocks l ->
     (exists o,
        4 + Block.index b <= o < Buffer.length payload - 1
        /\ Buffer.readUInt8 payload o = Some (Block.id b))
     /\ (Buffer.length payload = 2 + 2 + 4096 -> Block.index b <> 4095))
  /\ (forall payload' : list byte,
        length payload' = length payload ->
        (forall i : nat, (i + 1 < length payload)%nat -> payload' !! i = payload !! i) ->
        decodeChunk this (Some payload') chunkX chunkZ = (Return chunk, this')).
Proof.
  intros Hdec. split.
  - apply decodeChunk_inv in Hdec
      as (Hlen & _ & _ & _ & subChunkCount & offset & Hcount & Hloop).
    intros sc l b Hsc Hl Hb.
    destruct (subChunkLoop_Return this payload subChunkCount (Z.to_nat subChunkCount) 0 2)
      as (subChunks' & offset' & Hloop' & _ & Hall & _); [lia|].
    rewrite Hloop in Hloop'. injection Hloop' as <- <-.
    rewrite Forall_forall in Hall.
    destruct (Hall sc Hsc) as (o & r & Ho & Hr & <-).
    destruct (decodeSubChunk_blocks this payload o _ r l b Hr Hl Hb)
      as (ob & Hob & Hbyte).
    split; [exists ob; split; [lia|done]|]. lia.
  - intros payload' Hlen Hsame. rewrite <- Hdec.
    pose proof (decodeChunk_inv _ _ _ _ _ _ Hdec) as (Hge & _).
    unfold Buffer.length in Hge.
    apply decodeChunk_last_byte; [done|unfold Buffer.length; lia|].
    rewrite Hlen. apply Hsame.
Qed.

Lemma C10_last_byte_not_a_block_witness :
  let payload :=
    [x01; x08; x01; x01] ++ replicate 4094 x00 ++ [x02] ++ [x07] in
  exists chunk this' sc l b,
    decodeChunk constructor (Some payload) 0 0 = (Return chunk, this')
    /\ Chunk.subChunks chunk = [sc] /\ SubChunk.layers sc = [l]
    /\ Layer.blocks l = [b] /\ Block.index b = 4094
    /\ (exists o,
          4 + Block.index b <= o < Buffer.length payload - 1
          /\ Buffer.readUInt8 payload o = Some (Block.id b))
    /\ (Buffer.length payload = 2 + 2 + 4096 -> Block.index b <> 4095).
Proof.
  intros payload. do 5 eexists.
  split; [vm_compute; reflexivity|].
  do 4 (split; [reflexivity|]).
  eapply (fun chunk this' Hdec =>
            proj1 (C10_last_byte_not_a_block constructor payload 0 0 chunk this' Hdec)).
  - vm_compute. reflexivity.
  - apply list_elem_of_here.
  - apply list_elem_of_here.
  - apply list_elem_of_here.
Defined.

(** ** A decode looks at the mapping table only *)

Section SameMappings.

Variables this this' : ChunkDecoder.
Hypothesis Hmappings : blockMappings this = blockMappings this'.

Lemma createBlockData_mappings blockId index :
  createBlockData this blockId index = createBlockData this' blockId index.
Proof. unfold createBlockData. by rewrite Hmappings. Qed.

Lemma blockLoop_mappings payload fuel : forall i offset blocks,
  blockLoop this payload fuel i offset blocks
  = blockLoop this' payload fuel i offset blocks.
Proof.
  induction fuel as [|fuel IH]; intros i offset blocks; [done|].
  rewrite !blockLoop_unfold.
  destruct ((i <? 4096) && (offset <? Buffer.length payload - 1)); [|done].
  destruct (Buffer.readUInt8 payload offset) as [blockId|]; [|done].
  by rewrite createBlockData_mappings, IH.
Qed.

Lemma layerLoop_mappings payload layerCount fuel : forall layer offset layers,
  layerLoop this payload layerCount fuel layer offset layers
  = layerLoop this' payload layerCount fuel layer offset layers.
Proof.
  induction fuel as [|fuel IH]; intros layer offset layers; [done|].
  rewrite !layerLoop_unfold.
  destruct ((layer <? layerCount) && (offset <? Buffer.length payload - 1)); [|done].
  simpl. rewrite <- (blockLoop_mappings payload blockFuel 0 offset []). apply IH.
Qed.

Lemma decodeSubChunk_mappings payload offset yLevel :
  decodeSubChunk this payload offset yLevel
  = decodeSubChunk this' payload offset yLevel.
Proof.
  unfold decodeSubChunk.
  destruct (Buffer.length payload - 1 <=? offset); [done|].
  destruct (Buffer.readInt8 payload offset) as [version|]; simpl; [|done].
  destruct (Buffer.readInt8 payload (offset + 1)) as [layerCount|]; simpl; [|done].
  by rewrite layerLoop_mappings.
Qed.

Lemma subChunkLoop_mappings payload subChunkCount fuel : forall y offset subChunks,
  subChunkLoop this payload subChunkCount fuel y offset subChunks
  = subChunkLoop this' payload subChunkCount fuel y offset subChunks.
Proof.
  induction fuel as [|fuel IH]; intros y offset subChunks; [done|].
  rewrite !subChunkLoop_unfold.
  destruct ((y <? subChunkCount) && (offset <? Buffer.length payload - 1)); [|done].
  rewrite <- decodeSubChunk_mappings.
  destruct (decodeSubChunk this payload offset y) as [r|m]; simpl; [|done].
  apply IH.
Qed.

Lemma decodeChunkTry_mappings payload chunkX chunkZ :
  decodeChunkTry this payload chunkX chunkZ
  = decodeChunkTry this' payload chunkX chunkZ.
Proof.
  unfold decodeChunkTry. destruct payload as [payload|]; [|done].
  destruct (Buffer.length payload <? 2); [done|].
  destruct (Buffer.readInt8 payload 0) as [subChunkCount|]; simpl; [|done].
  destruct (Buffer.readInt8 payload (0 + 1)) as [storageVersion|]; simpl; [|done].
  by rewrite subChunkLoop_mappings.
Qed.

End SameMappings.

(** ** The chunk cache *)

Lemma decodeChunkTry_coordinates this payload chunkX chunkZ chunk :
  decodeChunkTry this payload chunkX chunkZ = Return chunk ->
  Chunk.x chunk = chunkX /\ Chunk.z chunk = chunkZ.
Proof.
  unfold decodeChunkTry. destruct payload as [payload|]; [|done].
  destruct (Buffer.length payload <? 2); [done|].
  destruct (Buffer.readInt8 payload 0) as [subChunkCount|]; simpl; [|done].
  destruct (Buffer.readInt8 payload (0 + 1)) as [storageVersion|]; simpl; [|done].
  destruct (subChunkLoop _ _ _ _ _ _ _) as [[subChunks offset]|m]; simpl; [|done].
  by intros [= <-].
Qed.

Lemma decodeChunk_success this payload chunkX chunkZ chunk this' :
  decodeChunk this payload chunkX chunkZ = (Return chunk, this') ->
  decodeChunkTry this payload chunkX chunkZ = Return chunk
  /\ this' = cacheChunk this chunk.
Proof.
  unfold decodeChunk.
  destruct (decodeChunkTry this payload chunkX chunkZ) as [c|m]; [|done].
  by intros [= <- <-].
Qed.

Lemma cacheChunk_lookup this chunk :
  getLastDecodedChunk (cacheChunk this chunk) (Chunk.x chunk) (Chunk.z chunk)
  = Some chunk.
Proof. unfold getLastDecodedChunk, cacheChunk. simpl. apply lookup_insert_eq. Qed.

(** C8. After two successful [decodeChunk] calls in a row for the same
    [(x, z)], the cache is the one from before the first call with the entry
    of [(x, z)] set to the chunk of the second call, a lookup for [(x, z)]
    returns that chunk, and that chunk is the one the second payload decodes
    to on its own: nothing of the first chunk is kept. *)
Theorem C8_cache_overwrite this payload1 payload2 x z chunk1 chunk2 this1 this2 :
  decodeChunk this payload1 x z = (Return chunk1, this1) ->
  decodeChunk this1 payload2 x z = (Return chunk2, this2) ->
  getLastDecodedChunk this2 x z = Some chunk2
  /\ chunkCache this2 = <[cacheKey x z := chunk2]> (chunkCache this)
  /\ (decodeChunk this payload2 x z).1 = Return chunk2.
Proof.
  intros [Htry1 ->]%decodeChunk_success [Htry2 ->]%decodeChunk_success.
  destruct (decodeChunkTry_coordinates _ _ _ _ _ Htry1) as [Hx1 Hz1].
  destruct (decodeChunkTry_coordinates _ _ _ _ _ Htry2) as [Hx2 Hz2].
  split; [|split].
  - rewrite <- Hx2, <- Hz2. apply cacheChunk_lookup.
  - unfold cacheChunk. simpl. rewrite Hx1, Hz1, Hx2, Hz2.
    apply insert_insert_eq.
  - unfold decodeChunk.
    rewrite (decodeChunkTry_mappings this (cacheChunk this chunk1)) by done.
    by rewrite Htry2.
Qed.

Lemma C8_cache_overwrite_witness :
  exists chunk1 chunk2 this1 this2,
    decodeChunk constructor (Some [x01; x08; x01; x01; x05; x00]) 2 3
    = (Return chunk1, this1)
    /\ decodeChunk this1 (Some [x00; x08]) 2 3 = (Return chunk2, this2)
    /\ chunk1 <> chunk2
    /\ getLastDecodedChunk this2 2 3 = Some chunk2
    /\ chunkCache this2 = <[cacheKey 2 3 := chunk2]> (chunkCache constructor)
    /\ (decodeChunk constructor (Some [x00; x08]) 2 3).1 = Return chunk2.
Proof.
  do 4 eexists.
  split; [vm_compute; reflexivity|].
  split; [vm_compute; reflexivity|].
  split; [discriminate|].
  eapply (C8_cache_overwrite constructor
            (Some [x01; x08; x01; x01; x05; x00]) (Some [x00; x08]) 2 3).
  - vm_compute. reflexivity.
  - vm_compute. reflexivity.
Defined.

(** ** The storage version *)

Lemma differ_at_1_agree (p q : list byte) :
  length p = length q ->
  (forall i : nat, i <> 1%nat -> p !! i = q !! i) ->
  agreeFrom 2 p q /\ Buffer.get p 0 = Buffer.get q 0.
Proof.
  intros Hlen Hsame. split; [split; [done|]|].
  - intros o Ho. unfold Buffer.get.
    destruct (Z.leb_spec 0 o); [|done]. apply Hsame. lia.
  - unfold Buffer.get. simpl. by apply Hsame.
Qed.

(** C9. Two payloads of one length of at least two bytes that differ in
    nothing but the byte at offset 1, decoded for the same coordinates by the
    same decoder, give the same completion (the same chunk) and leave the
    same decoder, cache included: the storage version has no influence. *)
Theorem C9_storage_version_ignored this (p q : list byte) chunkX chunkZ :
  length p = length q ->
  2 <= Buffer.length p ->
  (forall i : nat, i <> 1%nat -> p !! i = q !! i) ->
  decodeChunk this (Some p) chunkX chunkZ = decodeChunk this (Some q) chunkX chunkZ.
Proof.
  intros Hlen _ Hsame.
  destruct (differ_at_1_agree p q Hlen Hsame) as [Hagree H0].
  by apply decodeChunk_agree.
Qed.

Lemma C9_storage_version_ignored_witness :
  decodeChunk constructor (Some [x01; x08; x01; x01; x05; x00]) 2 3
  = decodeChunk constructor (Some [x01; xff; x01; x01; x05; x00]) 2 3.
Proof.
  apply (C9_storage_version_ignored constructor
           [x01; x08; x01; x01; x05; x00] [x01; xff; x01; x01; x05; x00] 2 3).
  - reflexivity.
  - vm_compute. discriminate.
  - intros [|[|i]] Hi; [reflexivity|lia|reflexivity].
Defined.

(** ** Small payloads run through the decoder

    The single-block payload is cut short after a hundred bytes: the layer
    ends where the buffer does, which changes nothing to its one block. *)

Example decode_empty_chunk :
  decodeChunk constructor (Some [x00; x08]) 2 3
  = (Return {| Chunk.x := 2; Chunk.z := 3; Chunk.subChunks := [] |},
     cacheChunk constructor {| Chunk.x := 2; Chunk.z := 3; Chunk.subChunks := [] |})
  /\ getLastDecodedChunk (decodeChunk constructor (Some [x00; x08]) 2 3).2 2 3
     = Some {| Chunk.x := 2; Chunk.z := 3; Chunk.subChunks := [] |}.
Proof. vm_compute. split; reflexivity. Qed.

Example decode_one_block :
  let payload := [x01; x08; x01; x01] ++ replicate 5 x00 ++ [x02] ++ replicate 90 x00 in
  let block :=
    {| Block.index := 5; Block.id := 2; Block.name := "unknown_block_2";
       Block.x := 5; Block.y := 0; Block.z := 0 |} in
  let chunk :=
    {| Chunk.x := 0; Chunk.z := 0;
       Chunk.subChunks :=
         [ {| SubChunk.y := 0; SubChunk.version := 1;
              SubChunk.layers :=
                [ {| Layer.index := 0; Layer.blocks := [block] |} ] |} ] |} in
  (decodeChunk constructor (Some payload) 0 0).1 = Return chunk
  /\ getBlockAt chunk 5 0 0 = Return (Some block)
  /\ getBlockAt chunk 0 0 0 = Return (Some (airSentinel 0 0 0 0))
  /\ getBlockAt chunk 0 16 0 = Return None.
Proof. vm_compute. repeat split. Qed.

Example getBlockAt_out_of_range chunk y :
  getBlockAt chunk 16 y 0 = Throw "Local coordinates must be between 0-15"
  /\ getBlockAt chunk 0 y (-1) = Throw "Local coordinates must be between 0-15".
Proof. split; reflexivity. Qed.

Example resolve_after_mapping :
  let this :=
    setBlockMappings constructor [ {| name := "minecraft:stone"; runtime_id := Some 2 |} ] in
  Block.name (createBlockData this 2 0) = "minecraft:stone"
  /\ Block.name (createBlockData this 9 0) = "unknown_block_9".
Proof. vm_compute. split; reflexivity. Qed.

(** * Further properties of the decoder *)

(** ** How far the cursor moves *)

Lemma blockLoop_offset_exact this payload fuel : forall i offset,
  0 <= offset -> 0 <= i ->
  (Z.to_nat (4096 - i) <= fuel)%nat ->
  (blockLoop this payload fuel i offset []).2
  = offset + Z.max 0 (Z.min (4096 - i) (Buffer.length payload - 1 - offset)).
Proof.
  induction fuel as [|fuel IH]; intros i offset Ho Hi Hfuel.
  - unfold blockLoop. simpl. lia.
  - rewrite blockLoop_step.
    destruct (Z.ltb_spec i 4096) as [Hlt|Hge]; simpl; [|lia].
    destruct (Z.ltb_spec offset (Buffer.length payload - 1)) as [Hin|Hout]; simpl; [|lia].
    destruct (readUInt8_is_Some payload offset) as [v ->]; [lia|]. simpl.
    rewrite IH by lia. lia.
Qed.

Lemma layerLoop_offset_exact this payload layerCount fuel : forall layer offset,
  0 <= offset ->
  (Z.to_nat (layerCount - layer) <= fuel)%nat ->
  (layerLoop this payload layerCount fuel layer offset []).2
  = Z.max offset
      (Z.min (offset + 4096 * Z.max 0 (layerCount - layer)) (Buffer.length payload - 1)).
Proof.
  induction fuel as [|fuel IH]; intros layer offset Ho Hfuel.
  - unfold layerLoop. simpl. lia.
  - rewrite layerLoop_step.
    destruct (Z.ltb_spec layer layerCount) as [Hlt|Hge]; simpl; [|lia].
    destruct (Z.ltb_spec offset (Buffer.length payload - 1)) as [Hin|Hout]; simpl; [|lia].
    pose proof (blockLoop_offset_exact this payload blockFuel 0 offset Ho) as Hb.
    rewrite blockFuel_eq in Hb at 1. specialize (Hb ltac:(lia) ltac:(lia)).
    rewrite IH by lia. rewrite Hb. lia.
Qed.

(** X1. The cursor handed back by [decodeSubChunk] is past the two header bytes
    and past 4096 bytes for each declared layer, cut at [length - 1]. *)
Theorem decodeSubChunk_newOffset this payload offset yLevel r :
  decodeSubChunk this payload offset yLevel = Return r ->
  exists layerCount,
    Buffer.readInt8 payload (offset + 1) = Some layerCount
    /\ newOffset r
       = Z.max (offset + 2)
           (Z.min (offset + 2 + 4096 * Z.max 0 layerCount) (Buffer.length payload - 1))
    /\ offset + 2 <= newOffset r <= Buffer.length payload.
Proof.
  intros (version & layerCount & Ho & _ & Hcount & ->)%decodeSubChunk_inv.
  exists layerCount. split; [done|]. simpl.
  rewrite layerLoop_offset_exact by lia. lia.
Qed.

Lemma decodeSubChunk_newOffset_witness :
  exists r,
    decodeSubChunk constructor [x01; x02; x00; x05; x07; x00; x00; x09; x00] 0 3 = Return r
    /\ newOffset r = 8.
Proof.
  eexists. split; [vm_compute; reflexivity|].
  destruct (decodeSubChunk_newOffset constructor
              [x01; x02; x00; x05; x07; x00; x00; x09; x00] 0 3 _ eq_refl)
    as (layerCount & Hcount & -> & _).
  injection Hcount as <-. reflexivity.
Defined.

(** ** Which bytes become blocks *)

Lemma layerLoop_decodedAt this payload layerCount fuel : forall layer offset,
  0 <= offset ->
  Forall (layerDecodedAt this payload layerCount layer offset)
    (layerLoop this payload layerCount fuel layer offset []).1.
Proof.
  induction fuel as [|fuel IH]; intros layer offset Ho; [by constructor|].
  rewrite layerLoop_step.
  destruct (Z.ltb_spec layer layerCount) as [Hlt|Hge]; simpl; [|by constructor].
  destruct (Z.ltb_spec offset (Buffer.length payload - 1)) as [Hin|Hout]; simpl;
    [|by constructor].
  pose proof (blockLoop_offset_exact this payload blockFuel 0 offset Ho) as Hb.
  rewrite blockFuel_eq in Hb at 1. specialize (Hb ltac:(lia) ltac:(lia)).
  apply Forall_app. split.
  - destruct (blockLoop this payload blockFuel 0 offset []).1 as [|b bs] eqn:Hbs;
      simpl; constructor; [|by constructor].
    unfold layerDecodedAt. simpl.
    replace (offset + 4096 * (layer - layer)) with offset by lia.
    rewrite Hbs. repeat split; try done; lia.
  - destruct (Z.lt_ge_cases (Buffer.length payload - 1 - offset) 4096) as [Hshort|Hfull].
    + rewrite layerLoop_exhausted by lia. constructor.
    + eapply Forall_impl; [apply IH; lia|].
      intros l (Hi & Hne & Hlt' & Hl). rewrite Hb in Hlt', Hl.
      replace (offset + Z.max 0 (Z.min (4096 - 0) (Buffer.length payload - 1 - offset))
               + 4096 * (Layer.index l - (layer + 1)))
        with (offset + 4096 * (Layer.index l - layer)) in Hlt', Hl by lia.
      unfold layerDecodedAt. repeat split; try done; lia.
Qed.

Lemma layerLoop_sorted this payload layerCount fuel : forall layer offset,
  StronglySorted Z.lt
    (Layer.index <$> (layerLoop this payload layerCount fuel layer offset []).1).
Proof.
  induction fuel as [|fuel IH]; intros layer offset; [by constructor|].
  rewrite layerLoop_step.
  destruct ((layer <? layerCount) && (offset <? Buffer.length payload - 1));
    [|by constructor].
  simpl. destruct (0 <? _); simpl; [|apply IH].
  constructor; [apply IH|].
  apply Forall_fmap. eapply Forall_impl; [apply layerLoop_layers|].
  intros l (Hi & _). simpl. lia.
Qed.

Lemma blockLoop_complete this payload fuel : forall i offset j v,
  0 <= offset ->
  (Z.to_nat (4096 - i) <= fuel)%nat ->
  i <= j < 4096 ->
  offset + (j - i) < Buffer.length payload - 1 ->
  Buffer.readUInt8 payload (offset + (j - i)) = Some v ->
  v <> 0 ->
  createBlockData this v j ∈ (blockLoop this payload fuel i offset []).1.
Proof.
  induction fuel as [|fuel IH]; intros i offset j v Ho Hfuel Hj Hlt Hread Hv; [lia|].
  rewrite blockLoop_step.
  destruct (Z.ltb_spec i 4096); [|lia].
  destruct (Z.ltb_spec offset (Buffer.length payload - 1)); [|lia]. simpl.
  destruct (readUInt8_is_Some payload offset) as [u Hu]; [lia|]. rewrite Hu. simpl.
  apply elem_of_app.
  destruct (decide (j = i)) as [->|Hne].
  - left. replace (offset + (i - i)) with offset in Hread by lia.
    rewrite Hu in Hread. injection Hread as ->.
    destruct (Z.eqb_spec v 0); [done|]. simpl. apply list_elem_of_here.
  - right. apply IH; try lia.
    by replace (offset + 1 + (j - (i + 1))) with (offset + (j - i)) by lia.
Qed.

Lemma layerLoop_complete this payload layerCount fuel : forall layer offset k i v,
  0 <= offset ->
  (Z.to_nat (layerCount - layer) <= fuel)%nat ->
  layer <= k < layerCount ->
  0 <= i < 4096 ->
  offset + 4096 * (k - layer) + i < Buffer.length payload - 1 ->
  Buffer.readUInt8 payload (offset + 4096 * (k - layer) + i) = Some v ->
  v <> 0 ->
  exists l,
    l ∈ (layerLoop this payload layerCount fuel layer offset []).1
    /\ Layer.index l = k
    /\ createBlockData this v i ∈ Layer.blocks l.
Proof.
  induction fuel as [|fuel IH]; intros layer offset k i v Ho Hfuel Hk Hi Hlt Hread Hv;
    [lia|].
  rewrite layerLoop_step.
  destruct (Z.ltb_spec layer layerCount); [|lia].
  destruct (Z.ltb_spec offset (Buffer.length payload - 1)); [|lia]. simpl.
  destruct (decide (k = layer)) as [->|Hne].
  - replace (offset + 4096 * (layer - layer) + i) with (offset + (i - 0)) in Hlt, Hread
      by lia.
    pose proof (blockLoop_complete this payload blockFuel 0 offset i v Ho) as Hin.
    rewrite blockFuel_eq in Hin at 1.
    specialize (Hin ltac:(lia) ltac:(lia) Hlt Hread Hv).
    destruct (blockLoop this payload blockFuel 0 offset []).1 as [|b bs] eqn:Hbs;
      [by apply elem_of_nil in Hin|].
    simpl. eexists. split; [apply list_elem_of_here|]. by split.
  - pose proof (blockLoop_offset_exact this payload blockFuel 0 offset Ho) as Hb.
    rewrite blockFuel_eq in Hb at 1. specialize (Hb ltac:(lia) ltac:(lia)).
    destruct (IH (layer + 1) (blockLoop this payload blockFuel 0 offset []).2 k i v)
      as (l & Hl & Hidx & Hblock); try lia.
    + rewrite Hb.
      replace (offset + Z.max 0 (Z.min (4096 - 0) (Buffer.length payload - 1 - offset))
               + 4096 * (k - (layer + 1)) + i)
        with (offset + 4096 * (k - layer) + i) by lia.
      done.
    + exists l. split; [|done]. apply elem_of_app. by right.
Qed.

Lemma decodeSubChunk_window this payload offset yLevel r k i v :
  decodeSubChunk this payload offset yLevel = Return r ->
  0 <= i < 4096 ->
  (exists l,
     l ∈ SubChunk.layers (data r)
     /\ Layer.index l = k
     /\ createBlockData this v i ∈ Layer.blocks l)
  <-> (exists layerCount,
         Buffer.readInt8 payload (offset + 1) = Some layerCount
         /\ 0 <= k < layerCount
         /\ v <> 0
         /\ offset + 2 + 4096 * k + i < Buffer.length payload - 1
         /\ Buffer.readUInt8 payload (offset + 2 + 4096 * k + i) = Some v).
Proof.
  intros (version & layerCount & Ho & _ & Hcount & ->)%decodeSubChunk_inv Hi. simpl.
  split.
  - intros (l & Hl & <- & Hb). exists layerCount. split; [done|].
    pose proof (layerLoop_decodedAt this payload layerCount (Z.to_nat layerCount)
                  0 (offset + 1 + 1) ltac:(lia)) as Hall.
    rewrite Forall_forall in Hall.
    destruct (Hall l Hl) as (Hidx & _ & Hlt & Hblocks).
    rewrite Hblocks in Hb.
    pose proof (blockLoop_blocks this payload blockFuel 0
                  (offset + 1 + 1 + 4096 * (Layer.index l - 0))) as Hread.
    rewrite Forall_forall in Hread.
    destruct (Hread _ Hb) as (_ & Hid & _ & Hpos & Hbyte). simpl in Hid, Hpos, Hbyte.
    replace (offset + 1 + 1 + 4096 * (Layer.index l - 0) + (i - 0))
      with (offset + 2 + 4096 * Layer.index l + i) in Hpos, Hbyte by lia.
    repeat split; try done; lia.
  - intros (layerCount' & Hcount' & Hk & Hv & Hlt & Hread).
    rewrite Hcount in Hcount'. injection Hcount' as <-.
    apply (layerLoop_complete this payload layerCount (Z.to_nat layerCount)
             0 (offset + 1 + 1) k i v); try lia.
    + by replace (offset + 1 + 1 + 4096 * (k - 0) + i)
        with (offset + 2 + 4096 * k + i) by lia.
Qed.

(** X2. A decoded sub-chunk holds the non-zero bytes of its windows and nothing
    else: layer [k] holds a block of id [v] at index [i] exactly when the
    byte [4096 * k + i] places past the header is [v], is not zero, and sits
    below [length - 1], [k] being below the declared layer count. *)
Theorem decodeSubChunk_blocks_exact this payload offset yLevel r k i v :
  decodeSubChunk this payload offset yLevel = Return r ->
  0 <= i < 4096 ->
  (exists l,
     l ∈ SubChunk.layers (data r)
     /\ Layer.index l = k
     /\ createBlockData this v i ∈ Layer.blocks l)
  <-> (exists layerCount,
         Buffer.readInt8 payload (offset + 1) = Some layerCount
         /\ 0 <= k < layerCount
         /\ v <> 0
         /\ offset + 2 + 4096 * k + i < Buffer.length payload - 1
         /\ Buffer.readUInt8 payload (offset + 2 + 4096 * k + i) = Some v).
Proof. apply decodeSubChunk_window. Qed.

Lemma decodeSubChunk_blocks_exact_witness :
  let payload := [x01; x02; x00; x05; x07; x00; x00; x09; x00] in
  exists r,
    decodeSubChunk constructor payload 0 3 = Return r
    /\ ((exists l,
           l ∈ SubChunk.layers (data r)
           /\ Layer.index l = 0
           /\ createBlockData constructor 9 5 ∈ Layer.blocks l)
        <-> (exists layerCount,
               Buffer.readInt8 payload (0 + 1) = Some layerCount
               /\ 0 <= 0 < layerCount
               /\ 9 <> 0
               /\ 0 + 2 + 4096 * 0 + 5 < Buffer.length payload - 1
               /\ Buffer.readUInt8 payload (0 + 2 + 4096 * 0 + 5) = Some 9)).
Proof.
  intros payload. eexists. split; [vm_compute; reflexivity|].
  apply (decodeSubChunk_blocks_exact constructor payload 0 3 _ 0 5 9);
    [vm_compute; reflexivity|lia].
Defined.

(** ** The shape of a decoded chunk *)

Lemma decodeSubChunk_block this payload offset yLevel r l b :
  decodeSubChunk this payload offset yLevel = Return r ->
  l ∈ SubChunk.layers (data r) ->
  b ∈ Layer.blocks l ->
  layerWellFormed l
  /\ 0 <= Block.index b < 4096
  /\ 0 < Block.id b < 256
  /\ b = createBlockData this (Block.id b) (Block.index b).
Proof.
  intros (version & layerCount & _ & _ & _ & ->)%decodeSubChunk_inv Hl Hb.
  simpl in Hl.
  pose proof (layerLoop_layers this payload layerCount (Z.to_nat layerCount)
                0 (offset + 1 + 1)) as Hall.
  rewrite Forall_forall in Hall. specialize (Hall l Hl).
  split; [by eapply layerReadAt_wellFormed|].
  destruct Hall as (_ & _ & o & _ & Hblocks). rewrite Hblocks in Hb.
  pose proof (blockLoop_blocks this payload blockFuel 0 o) as Hread.
  rewrite Forall_forall in Hread.
  destruct (Hread b Hb) as (Hi & Hid & Hcreate & _). done.
Qed.

Lemma decodeChunk_structure this payload chunkX chunkZ chunk this' :
  decodeChunk this (Some payload) chunkX chunkZ = (Return chunk, this') ->
  Forall (subChunkReadAt this payload 2) (Chunk.subChunks chunk)
  /\ (forall (k : nat) sc,
        Chunk.subChunks chunk !! k = Some sc -> SubChunk.y sc = Z.of_nat k).
Proof.
  intros (Hlen & _ & _ & _ & subChunkCount & offset & Hcount & Hloop)%decodeChunk_inv.
  destruct (subChunkLoop_Return this payload subChunkCount (Z.to_nat subChunkCount) 0 2)
    as (subChunks' & offset' & Hloop' & _ & Hall & Hys & _); [lia|].
  rewrite Hloop in Hloop'. injection Hloop' as <- <-.
  split; [done|]. intros k sc Hk. rewrite (Hys k sc Hk). lia.
Qed.

Lemma decodeChunk_block this payload chunkX chunkZ chunk this' sc l b :
  decodeChunk this (Some payload) chunkX chunkZ = (Return chunk, this') ->
  sc ∈ Chunk.subChunks chunk -> l ∈ SubChunk.layers sc -> b ∈ Layer.blocks l ->
  layerWellFormed l
  /\ 0 <= Block.index b < 4096
  /\ 0 < Block.id b < 256
  /\ b = createBlockData this (Block.id b) (Block.index b).
Proof.
  intros [Hall _]%decodeChunk_structure Hsc Hl Hb.
  rewrite Forall_forall in Hall.
  destruct (Hall sc Hsc) as (o & r & _ & Hr & <-).
  by eapply decodeSubChunk_block.
Qed.

Lemma createBlockData_local this blockId index :
  0 <= index < 4096 ->
  let b := createBlockData this blockId index in
  Block.x b = index mod 16
  /\ Block.y b = index / 256
  /\ Block.z b = index mod 256 / 16
  /\ 0 <= Block.x b <= 15 /\ 0 <= Block.y b <= 15 /\ 0 <= Block.z b <= 15
  /\ Block.y b * 256 + Block.z b * 16 + Block.x b = index.
Proof.
  intros Hi. simpl. rewrite !Z.rem_mod_nonneg by lia.
  repeat split; Z.to_euclidean_division_equations; lia.
Qed.

(** X3. Every block of a decoded chunk has an index in [0, 4095] and an id in
    [1, 255]; its coordinates are the ones of its index, each in [0, 15]; its
    name is the table entry of its id when that is a non-empty string, and
    the placeholder of its id otherwise, the table being the one the decoder
    had at the call. *)
Theorem decodeChunk_block_invariant this payload chunkX chunkZ chunk this' sc l b :
  decodeChunk this (Some payload) chunkX chunkZ = (Return chunk, this') ->
  sc ∈ Chunk.subChunks chunk -> l ∈ SubChunk.layers sc -> b ∈ Layer.blocks l ->
  0 <= Block.index b <= 4095
  /\ 1 <= Block.id b <= 255
  /\ Block.x b = Block.index b mod 16
  /\ Block.y b = Block.index b / 256
  /\ Block.z b = Block.index b mod 256 / 16
  /\ (0 <= Block.x b <= 15 /\ 0 <= Block.y b <= 15 /\ 0 <= Block.z b <= 15)
  /\ Block.name b
     = match blockMappings this !! Block.id b with
       | Some n =>
           if bool_decide (n = EmptyString)
           then "unknown_block_" +:+ pretty (Block.id b) else n
       | None => "unknown_block_" +:+ pretty (Block.id b)
       end.
Proof.
  intros Hdec Hsc Hl Hb.
  destruct (decodeChunk_block _ _ _ _ _ _ _ _ _ Hdec Hsc Hl Hb)
    as (_ & Hi & Hid & Hcreate).
  pose proof (createBlockData_local this (Block.id b) (Block.index b) Hi) as Hlocal.
  simpl in Hlocal. rewrite Hcreate. simpl.
  destruct Hlocal as (Hx & Hy & Hz & Hxr & Hyr & Hzr & _).
  repeat split; try lia; done.
Qed.

Lemma decodeChunk_block_invariant_witness :
  let this :=
    setBlockMappings constructor [ {| name := "minecraft:stone"; runtime_id := Some 7 |} ] in
  let b := createBlockData this 7 273 in
  0 <= Block.index b <= 4095
  /\ 1 <= Block.id b <= 255
  /\ Block.x b = Block.index b mod 16
  /\ Block.y b = Block.index b / 256
  /\ Block.z b = Block.index b mod 256 / 16
  /\ (0 <= Block.x b <= 15 /\ 0 <= Block.y b <= 15 /\ 0 <= Block.z b <= 15)
  /\ Block.name b
     = match blockMappings this !! Block.id b with
       | Some n =>
           if bool_decide (n = EmptyString)
           then "unknown_block_" +:+ pretty (Block.id b) else n
       | None => "unknown_block_" +:+ pretty (Block.id b)
       end.
Proof.
  intros this b.
  eapply (decodeChunk_block_invariant this
            ([x01; x08; x01; x01] ++ replicate 273 x00 ++ [x07; x00]) 0 0).
  - vm_compute. reflexivity.
  - apply list_elem_of_here.
  - apply list_elem_of_here.
  - apply list_elem_of_here.
Defined.

(** X4. The layers of a decoded sub-chunk carry strictly ascending indices, all
    of them from 0 up to, and excluding, the declared layer count, so there
    are at most that many; a count byte of 0 or from [0x80] on, read as a
    signed byte, leaves no layer. *)
Theorem decodeSubChunk_layers_ascending this payload offset yLevel r :
  decodeSubChunk this payload offset yLevel = Return r ->
  exists layerCount,
    Buffer.readInt8 payload (offset + 1) = Some layerCount
    /\ StronglySorted Z.lt (Layer.index <$> SubChunk.layers (data r))
    /\ Forall (fun l => 0 <= Layer.index l < layerCount) (SubChunk.layers (data r))
    /\ Z.of_nat (length (SubChunk.layers (data r))) <= Z.max 0 layerCount
    /\ (layerCount <= 0 -> SubChunk.layers (data r) = []).
Proof.
  intros (version & layerCount & _ & _ & Hcount & ->)%decodeSubChunk_inv.
  exists layerCount. simpl. split; [done|]. split; [apply layerLoop_sorted|].
  assert (Forall (fun l => 0 <= Layer.index l < layerCount)
            (layerLoop this payload layerCount (Z.to_nat layerCount) 0
               (offset + 1 + 1) []).1) as Hrange.
  { eapply Forall_impl; [apply layerLoop_layers|]. by intros l (Hi & _). }
  split; [done|].
  assert (forall fuel layer o,
            (length (layerLoop this payload layerCount fuel layer o []).1 <= fuel)%nat)
    as Hlen.
  { induction fuel as [|fuel IH]; intros layer o; [done|].
    rewrite layerLoop_step.
    destruct ((layer <? layerCount) && (o <? Buffer.length payload - 1));
      [|simpl; lia].
    simpl. rewrite length_app.
    specialize (IH (layer + 1) (blockLoop this payload blockFuel 0 o []).2).
    destruct (0 <? _); simpl; lia. }
  specialize (Hlen (Z.to_nat layerCount) 0 (offset + 1 + 1)).
  split; [lia|].
  intros Hle. apply length_zero_iff_nil. lia.
Qed.

Lemma decodeSubChunk_layers_ascending_witness :
  exists r layerCount,
    decodeSubChunk constructor [x01; x02; x00; x05; x07; x00; x00; x09; x00] 0 3 = Return r
    /\ Buffer.readInt8 [x01; x02; x00; x05; x07; x00; x00; x09; x00] (0 + 1)
       = Some layerCount
    /\ StronglySorted Z.lt (Layer.index <$> SubChunk.layers (data r))
    /\ Forall (fun l => 0 <= Layer.index l < layerCount) (SubChunk.layers (data r))
    /\ Z.of_nat (length (SubChunk.layers (data r))) <= Z.max 0 layerCount
    /\ (layerCount <= 0 -> SubChunk.layers (data r) = []).
Proof.
  eexists.
  destruct (decodeSubChunk_layers_ascending constructor
              [x01; x02; x00; x05; x07; x00; x00; x09; x00] 0 3 _ eq_refl)
    as (layerCount & H).
  exists layerCount. split; [vm_compute; reflexivity|exact H].
Defined.

(** ** Queries against a decoded chunk *)

Lemma find_slot_lookup (subChunks : list SubChunk.t) : forall base slot,
  (forall (k : nat) sc, subChunks !! k = Some sc -> SubChunk.y sc = base + Z.of_nat k) ->
  find (fun sc => SubChunk.y sc =? slot) subChunks
  = if base <=? slot then subChunks !! Z.to_nat (slot - base) else None.
Proof.
  induction subChunks as [|sc subChunks IH]; intros base slot Hys.
  - simpl. by destruct (base <=? slot).
  - simpl. pose proof (Hys 0%nat sc eq_refl) as Hsc. simpl in Hsc.
    destruct (Z.eqb_spec (SubChunk.y sc) slot) as [Heq|Hne].
    + destruct (Z.leb_spec base slot); [|lia].
      by replace (Z.to_nat (slot - base)) with 0%nat by lia.
    + rewrite (IH (base + 1) slot).
      * destruct (Z.leb_spec base slot), (Z.leb_spec (base + 1) slot); try lia; [|done].
        replace (Z.to_nat (slot - base)) with (S (Z.to_nat (slot - (base + 1)))) by lia.
        done.
      * intros k sc' Hk. rewrite (Hys (S k) sc' Hk). lia.
Qed.

Lemma findBlock_Some layers blockIndex b :
  findBlock layers blockIndex = Some b ->
  exists l, l ∈ layers /\ b ∈ Layer.blocks l /\ Block.index b = blockIndex.
Proof.
  induction layers as [|l layers IH]; [done|]. simpl.
  destruct (find _ (Layer.blocks l)) as [b'|] eqn:Hfind.
  - intros [= ->]. apply find_some in Hfind as [Hin Heq].
    exists l. split; [apply list_elem_of_here|].
    split; [by apply list_elem_of_In|lia].
  - intros (l' & Hl' & Hb)%IH. exists l'. split; [by apply list_elem_of_further|done].
Qed.

Lemma findBlock_is_Some layers l b :
  l ∈ layers -> b ∈ Layer.blocks l ->
  is_Some (findBlock layers (Block.index b)).
Proof.
  induction layers as [|l' layers IH]; intros Hl Hb; [by apply elem_of_nil in Hl|].
  simpl. destruct (find _ (Layer.blocks l')) as [b'|] eqn:Hfind; [by eexists|].
  apply elem_of_cons in Hl as [->|Hl]; [|by apply IH].
  apply list_elem_of_In in Hb.
  pose proof (find_none _ _ Hfind b Hb) as Hno. simpl in Hno. lia.
Qed.

Lemma find_by_index (blocks : list Block.t) b :
  NoDup (Block.index <$> blocks) -> b ∈ blocks ->
  find (fun b' => Block.index b' =? Block.index b) blocks = Some b.
Proof.
  induction blocks as [|b0 blocks IH]; intros Hnd Hb; [by apply elem_of_nil in Hb|].
  simpl in *. apply NoDup_cons in Hnd as [Hnotin Hnd].
  apply elem_of_cons in Hb as [->|Hb].
  - by rewrite Z.eqb_refl.
  - destruct (Z.eqb_spec (Block.index b0) (Block.index b)) as [Heq|Hne]; [|by apply IH].
    exfalso. apply Hnotin. rewrite Heq. by apply list_elem_of_fmap_2.
Qed.

(** X5. On a decoded chunk, and for [x], [z] in range, the query returns [null]
    exactly at the heights outside the decoded column: below 0, or from 16
    times the number of sub-chunks on. *)
Theorem getBlockAt_null_iff this payload chunkX chunkZ chunk this' x y z :
  decodeChunk this (Some payload) chunkX chunkZ = (Return chunk, this') ->
  0 <= x <= 15 -> 0 <= z <= 15 ->
  getBlockAt chunk x y z = Return None
  <-> y < 0 \/ 16 * Z.of_nat (length (Chunk.subChunks chunk)) <= y.
Proof.
  intros [_ Hys]%decodeChunk_structure Hx Hz.
  rewrite getBlockAt_in_range by done.
  rewrite (find_slot_lookup _ 0) by (intros k sc Hk; rewrite (Hys k sc Hk); lia).
  unfold subChunkIndexOf.
  destruct (Z.leb_spec 0 (y / 16)) as [Hnn|Hneg].
  - destruct (Chunk.subChunks chunk !! Z.to_nat (y / 16 - 0)) as [sc|] eqn:Hk.
    + apply lookup_lt_Some in Hk.
      split; [by destruct (findBlock _ _)|].
      intros [Hy|Hy]; Z.to_euclidean_division_equations; lia.
    + apply lookup_ge_None in Hk.
      split; [|done]. intros _. right. Z.to_euclidean_division_equations. lia.
  - split; [|done]. intros _. left. Z.to_euclidean_division_equations. lia.
Qed.

Lemma getBlockAt_null_iff_witness :
  exists chunk this',
    decodeChunk constructor (Some [x01; x08; x01; x01; x05; x00]) 2 3 = (Return chunk, this')
    /\ getBlockAt chunk 0 16 0 = Return None
    /\ getBlockAt chunk 0 15 0 <> Return None.
Proof.
  do 2 eexists. split; [vm_compute; reflexivity|].
  split.
  - eapply (getBlockAt_null_iff constructor [x01; x08; x01; x01; x05; x00] 2 3 _ _ 0 16 0);
      [vm_compute; reflexivity|lia|lia|]. right. simpl. lia.
  - intros Hnull.
    eapply (getBlockAt_null_iff constructor [x01; x08; x01; x01; x05; x00] 2 3 _ _ 0 15 0)
      in Hnull; [|vm_compute; reflexivity|lia|lia].
    simpl in Hnull. lia.
Defined.

(** X6. Whatever block a query returns on a decoded chunk sits at the index
    formed from the query, the height taken modulo 16, and carries the [x]
    and [z] of the query. It is either the air sentinel, which carries the
    absolute height of the query, or a stored block of the sub-chunk of that
    height, which carries the height within the sub-chunk and an id other
    than 0. *)
Theorem getBlockAt_result this payload chunkX chunkZ chunk this' x y z b :
  decodeChunk this (Some payload) chunkX chunkZ = (Return chunk, this') ->
  getBlockAt chunk x y z = Return (Some b) ->
  (0 <= x <= 15 /\ 0 <= z <= 15)
  /\ 0 <= y < 16 * Z.of_nat (length (Chunk.subChunks chunk))
  /\ Block.index b = y mod 16 * 256 + z * 16 + x
  /\ Block.x b = x /\ Block.z b = z
  /\ (b = airSentinel (y mod 16 * 256 + z * 16 + x) x y z
      \/ (Block.id b <> 0
          /\ Block.y b = y mod 16
          /\ exists sc l,
               Chunk.subChunks chunk !! Z.to_nat (y / 16) = Some sc
               /\ l ∈ SubChunk.layers sc /\ b ∈ Layer.blocks l)).
Proof.
  intros Hdec Hget.
  assert (0 <= x <= 15 /\ 0 <= z <= 15) as [Hx Hz].
  { revert Hget. unfold getBlockAt.
    destruct (Z.ltb_spec x 0), (Z.ltb_spec 15 x), (Z.ltb_spec z 0), (Z.ltb_spec 15 z);
      simpl; try discriminate. lia. }
  split; [done|].
  destruct (decodeChunk_structure _ _ _ _ _ _ Hdec) as [_ Hys].
  rewrite getBlockAt_in_range in Hget by done.
  rewrite (find_slot_lookup _ 0) in Hget
    by (intros k sc Hk; rewrite (Hys k sc Hk); lia).
  unfold subChunkIndexOf in Hget.
  destruct (Z.leb_spec 0 (y / 16)) as [Hnn|Hneg]; [|done].
  replace (y / 16 - 0) with (y / 16) in Hget by lia.
  destruct (Chunk.subChunks chunk !! Z.to_nat (y / 16)) as [sc|] eqn:Hk; [|done].
  assert (0 <= y) as Hy by (Z.to_euclidean_division_equations; lia).
  destruct (localYOf_nonneg y Hy) as [Hlocal Hrange].
  unfold blockIndexOf in Hget. rewrite Hlocal in Hget, Hrange.
  split.
  { apply lookup_lt_Some in Hk. Z.to_euclidean_division_equations. lia. }
  destruct (findBlock _ _) as [b'|] eqn:Hfind.
  - injection Hget as ->.
    apply findBlock_Some in Hfind as (l & Hl & Hb & Hidx).
    assert (sc ∈ Chunk.subChunks chunk) as Hsc by (apply list_elem_of_lookup; eauto).
    destruct (decodeChunk_block _ _ _ _ _ _ _ _ _ Hdec Hsc Hl Hb)
      as (_ & Hi & Hid & Hcreate).
    pose proof (createBlockData_local this (Block.id b) (Block.index b) Hi) as Hloc.
    cbv zeta in Hloc. rewrite <- Hcreate in Hloc.
    destruct Hloc as (Hbx & Hby & Hbz & _).
    split; [done|].
    split; [rewrite Hbx, Hidx; Z.to_euclidean_division_equations; lia|].
    split; [rewrite Hbz, Hidx; Z.to_euclidean_division_equations; lia|].
    right. split; [lia|].
    split; [rewrite Hby, Hidx; Z.to_euclidean_division_equations; lia|].
    by exists sc, l.
  - injection Hget as <-. simpl. repeat split; try done. by left.
Qed.

Lemma getBlockAt_result_witness :
  exists chunk this' b,
    decodeChunk constructor (Some [x01; x08; x01; x01; x05; x00]) 2 3 = (Return chunk, this')
    /\ getBlockAt chunk 0 0 0 = Return (Some b)
    /\ Block.index b = 0 mod 16 * 256 + 0 * 16 + 0
    /\ Block.id b = 5.
Proof.
  do 3 eexists. split; [vm_compute; reflexivity|].
  split; [vm_compute; reflexivity|].
  split; [|reflexivity].
  eapply (getBlockAt_result constructor [x01; x08; x01; x01; x05; x00] 2 3 _ _ 0 0 0);
    vm_compute; reflexivity.
Defined.

Lemma getBlockAt_stored this payload chunkX chunkZ chunk this' sc l b :
  decodeChunk this (Some payload) chunkX chunkZ = (Return chunk, this') ->
  sc ∈ Chunk.subChunks chunk -> l ∈ SubChunk.layers sc -> b ∈ Layer.blocks l ->
  exists b',
    getBlockAt chunk (Block.x b) (16 * SubChunk.y sc + Block.y b) (Block.z b)
    = Return (Some b')
    /\ Block.index b' = Block.index b
    /\ Block.id b' <> 0
    /\ (forall rest, SubChunk.layers sc = l :: rest -> b' = b).
Proof.
  intros Hdec Hsc Hl Hb.
  destruct (decodeChunk_structure _ _ _ _ _ _ Hdec) as [_ Hys].
  destruct (decodeChunk_block _ _ _ _ _ _ _ _ _ Hdec Hsc Hl Hb)
    as (Hwf & Hi & Hid & Hcreate).
  pose proof (createBlockData_local this (Block.id b) (Block.index b) Hi) as Hloc.
  cbv zeta in Hloc. rewrite <- Hcreate in Hloc.
  destruct Hloc as (_ & _ & _ & Hxr & Hyr & Hzr & Hindex).
  apply list_elem_of_lookup in Hsc as Hk. destruct Hk as [k Hk].
  pose proof (Hys k sc Hk) as Hy.
  rewrite getBlockAt_in_range by done.
  rewrite (find_slot_lookup _ 0) by (intros k' sc' Hk'; rewrite (Hys k' sc' Hk'); lia).
  unfold subChunkIndexOf.
  assert ((16 * SubChunk.y sc + Block.y b) / 16 = Z.of_nat k) as ->
    by (Z.to_euclidean_division_equations; lia).
  destruct (Z.leb_spec 0 (Z.of_nat k)); [|lia].
  replace (Z.to_nat (Z.of_nat k - 0)) with k by lia. rewrite Hk.
  assert (blockIndexOf (localYOf (16 * SubChunk.y sc + Block.y b)) (Block.x b) (Block.z b)
          = Block.index b) as ->.
  { unfold blockIndexOf.
    destruct (localYOf_nonneg (16 * SubChunk.y sc + Block.y b)) as [-> _]; [lia|].
    rewrite <- Hindex. Z.to_euclidean_division_equations. lia. }
  destruct (findBlock_is_Some _ _ _ Hl Hb) as [b' Hfind].
  rewrite Hfind. exists b'. split; [done|].
  pose proof (findBlock_Some _ _ _ Hfind) as (l' & Hl' & Hb' & Hidx).
  split; [done|]. split.
  - destruct (decodeChunk_block _ _ _ _ _ _ _ _ _ Hdec Hsc Hl' Hb') as (_ & _ & ? & _).
    lia.
  - intros rest Hlayers. rewrite Hlayers in Hfind. simpl in Hfind.
    destruct Hwf as (_ & _ & Hnd & _).
    rewrite (find_by_index _ _ Hnd Hb) in Hfind. by injection Hfind as <-.
Qed.

(** X7. Every block of a decoded chunk is found again: the query at its own
    coordinates, the height counted from the bottom of the chunk, returns a
    stored block of the same index, and the block itself when it lies in the
    first layer kept for its sub-chunk. *)
Theorem getBlockAt_decoded_block this payload chunkX chunkZ chunk this' sc l b :
  decodeChunk this (Some payload) chunkX chunkZ = (Return chunk, this') ->
  sc ∈ Chunk.subChunks chunk -> l ∈ SubChunk.layers sc -> b ∈ Layer.blocks l ->
  exists b',
    getBlockAt chunk (Block.x b) (16 * SubChunk.y sc + Block.y b) (Block.z b)
    = Return (Some b')
    /\ Block.index b' = Block.index b
    /\ Block.id b' <> 0
    /\ (forall rest, SubChunk.layers sc = l :: rest -> b' = b).
Proof. apply getBlockAt_stored. Qed.

Lemma getBlockAt_decoded_block_witness :
  let payload := [x01; x08; x01; x01] ++ replicate 273 x00 ++ [x07; x00] in
  let b := createBlockData constructor 7 273 in
  exists chunk this' sc l,
    decodeChunk constructor (Some payload) 0 0 = (Return chunk, this')
    /\ Chunk.subChunks chunk = [sc] /\ SubChunk.layers sc = [l]
    /\ exists b',
         getBlockAt chunk (Block.x b) (16 * SubChunk.y sc + Block.y b) (Block.z b)
         = Return (Some b')
         /\ Block.index b' = Block.index b
         /\ Block.id b' <> 0
         /\ (forall rest, SubChunk.layers sc = l :: rest -> b' = b).
Proof.
  intros payload b. do 4 eexists.
  split; [vm_compute; reflexivity|].
  do 2 (split; [reflexivity|]).
  eapply (getBlockAt_decoded_block constructor payload 0 0).
  - vm_compute. reflexivity.
  - apply list_elem_of_here.
  - apply list_elem_of_here.
  - apply list_elem_of_here.
Defined.

(** ** Decode, then query *)

Lemma decodeSubChunk_layers_sorted this payload offset yLevel r :
  decodeSubChunk this payload offset yLevel = Return r ->
  StronglySorted Z.lt (Layer.index <$> SubChunk.layers (data r))
  /\ Forall (fun l => 0 <= Layer.index l) (SubChunk.layers (data r)).
Proof.
  intros (version & layerCount & _ & _ & _ & ->)%decodeSubChunk_inv. simpl.
  split; [apply layerLoop_sorted|].
  eapply Forall_impl; [apply layerLoop_layers|]. intros l (Hi & _). simpl. lia.
Qed.


Lemma decodeChunk_first_subChunk this payload chunkX chunkZ chunk this' subChunkCount :
  decodeChunk this (Some payload) chunkX chunkZ = (Return chunk, this') ->
  Buffer.readInt8 payload 0 = Some subChunkCount ->
  1 <= subChunkCount ->
  3 < Buffer.length payload ->
  exists r rest,
    decodeSubChunk this payload 2 0 = Return r
    /\ Chunk.subChunks chunk = data r :: rest.
Proof.
  intros (_ & _ & _ & _ & count & offset & Hcount & Hloop)%decodeChunk_inv Hcount' Hpos Hlen.
  rewrite Hcount in Hcount'. injection Hcount' as ->.
  destruct (Z.to_nat subChunkCount) as [|fuel] eqn:Hfuel; [lia|].
  rewrite subChunkLoop_unfold in Hloop.
  destruct (Z.ltb_spec 0 subChunkCount); [|lia].
  destruct (Z.ltb_spec 2 (Buffer.length payload - 1)); [|lia].
  simpl in Hloop.
  destruct (decodeSubChunk_Return this payload 2 0) as [r Hr]; [lia|].
  rewrite Hr in Hloop. simpl in Hloop. rewrite subChunkLoop_app in Hloop.
  destruct (subChunkLoop this payload subChunkCount fuel (0 + 1) (newOffset r) [])
    as [[rest o]|m]; [|done].
  simpl in Hloop. injection Hloop as <- _.
  by exists r, rest.
Qed.

Lemma first_layer (layers : list Layer.t) l :
  StronglySorted Z.lt (Layer.index <$> layers) ->
  Forall (fun l' => 0 <= Layer.index l') layers ->
  l ∈ layers -> Layer.index l = 0 ->
  exists rest, layers = l :: rest.
Proof.
  intros Hsorted Hnn Hl H0. destruct layers as [|l0 rest]; [by apply elem_of_nil in Hl|].
  apply elem_of_cons in Hl as [->|Hl]; [by exists rest|].
  exfalso. simpl in Hsorted. apply StronglySorted_inv in Hsorted as [_ Hall].
  rewrite Forall_forall in Hall.
  assert (Layer.index l0 < Layer.index l) as Hlt.
  { apply Hall. by apply list_elem_of_fmap_2. }
  apply Forall_cons in Hnn as [Hl0 _]. lia.
Qed.

Lemma decode_first_subChunk_query this payload chunkX chunkZ chunk this'
  subChunkCount layerCount i v :
  decodeChunk this (Some payload) chunkX chunkZ = (Return chunk, this') ->
  Buffer.readInt8 payload 0 = Some subChunkCount -> 1 <= subChunkCount ->
  Buffer.readInt8 payload 3 = Some layerCount -> 1 <= layerCount ->
  0 <= i < 4096 ->
  4 + i < Buffer.length payload - 1 ->
  Buffer.readUInt8 payload (4 + i) = Some v ->
  (v <> 0 ->
   getBlockAt chunk (i mod 16) (i / 256) (i mod 256 / 16)
   = Return (Some (createBlockData this v i)))
  /\ (v = 0 -> layerCount = 1 ->
      getBlockAt chunk (i mod 16) (i / 256) (i mod 256 / 16)
      = Return (Some (airSentinel i (i mod 16) (i / 256) (i mod 256 / 16)))).
Proof.
  intros Hdec Hcount Hpos Hlayers Hlpos Hi Hlt Hread.
  destruct (decodeChunk_first_subChunk _ _ _ _ _ _ _ Hdec Hcount Hpos)
    as (r & rest & Hr & Hsubs); [lia|].
  assert (data r ∈ Chunk.subChunks chunk) as Hsc
    by (rewrite Hsubs; apply list_elem_of_here).
  pose proof (decodeSubChunk_y _ _ _ _ _ Hr) as Hy.
  assert (0 <= i mod 16 <= 15 /\ 0 <= i / 256 <= 15 /\ 0 <= i mod 256 / 16 <= 15
          /\ i / 256 * 256 + i mod 256 / 16 * 16 + i mod 16 = i) as (Hx & Hy' & Hz & Hsum)
    by (repeat split; Z.to_euclidean_division_equations; lia).
  split.
  - intros Hv.
    destruct (proj2 (decodeSubChunk_window this payload 2 0 r 0 i v Hr Hi))
      as (l & Hl & Hidx & Hb).
    { exists layerCount. replace (2 + 2 + 4096 * 0 + i) with (4 + i) by lia.
      repeat split; try done; lia. }
    destruct (decodeSubChunk_layers_sorted this payload 2 0 r Hr) as [Hsorted Hnn].
    destruct (first_layer _ l Hsorted Hnn Hl Hidx) as [others Hfirst].
    destruct (getBlockAt_stored _ _ _ _ _ _ _ _ _ Hdec Hsc Hl Hb)
      as (b' & Hget & _ & _ & Hsame).
    rewrite (Hsame others Hfirst) in Hget.
    pose proof (createBlockData_local this v i Hi) as Hloc. cbv zeta in Hloc.
    destruct Hloc as (Hbx & Hby & Hbz & _).
    rewrite Hbx, Hby, Hbz, Hy in Hget.
    by replace (16 * 0 + i / 256) with (i / 256) in Hget by lia.
  - intros -> ->.
    rewrite getBlockAt_in_range by lia. rewrite Hsubs. simpl. rewrite Hy.
    unfold subChunkIndexOf.
    assert (i / 256 / 16 = 0) as -> by (Z.to_euclidean_division_equations; lia).
    simpl.
    destruct (localYOf_nonneg (i / 256)) as [-> _]; [lia|].
    assert (blockIndexOf ((i / 256) mod 16) (i mod 16) (i mod 256 / 16) = i) as ->.
    { unfold blockIndexOf. rewrite <- Hsum at 4.
      Z.to_euclidean_division_equations. lia. }
    destruct (findBlock (SubChunk.layers (data r)) i) as [b|] eqn:Hfind; [|done].
    exfalso. apply findBlock_Some in Hfind as (l & Hl & Hb & Hidx).
    destruct (decodeSubChunk_block _ _ _ _ _ _ _ Hr Hl Hb) as (_ & _ & Hid & Hcreate).
    rewrite Hidx in Hcreate. rewrite Hcreate in Hb.
    destruct (proj1 (decodeSubChunk_window this payload 2 0 r (Layer.index l) i
                       (Block.id b) Hr Hi))
      as (lc & Hlc & Hk & Hne & _ & Hbyte); [by exists l|].
    replace (2 + 1) with 3 in Hlc by lia. rewrite Hlayers in Hlc. injection Hlc as <-.
    replace (2 + 2 + 4096 * Layer.index l + i) with (4 + i) in Hbyte by lia.
    rewrite Hread in Hbyte. injection Hbyte as Hzero. lia.
Qed.

(** X8. The first sub-chunk is read back byte by byte. With at least one
    sub-chunk and one layer declared, the query at the coordinates of index
    [i] and height below 16 returns the block made of the byte at offset
    [4 + i] when that byte is not zero and lies below [length - 1]; when the
    byte is zero and one layer is declared, it returns the air sentinel. *)
Theorem decode_then_getBlockAt this payload chunkX chunkZ chunk this'
  subChunkCount layerCount i v :
  decodeChunk this (Some payload) chunkX chunkZ = (Return chunk, this') ->
  Buffer.readInt8 payload 0 = Some subChunkCount -> 1 <= subChunkCount ->
  Buffer.readInt8 payload 3 = Some layerCount -> 1 <= layerCount ->
  0 <= i < 4096 ->
  4 + i < Buffer.length payload - 1 ->
  Buffer.readUInt8 payload (4 + i) = Some v ->
  (v <> 0 ->
   getBlockAt chunk (i mod 16) (i / 256) (i mod 256 / 16)
   = Return (Some (createBlockData this v i)))
  /\ (v = 0 -> layerCount = 1 ->
      getBlockAt chunk (i mod 16) (i / 256) (i mod 256 / 16)
      = Return (Some (airSentinel i (i mod 16) (i / 256) (i mod 256 / 16)))).
Proof. apply decode_first_subChunk_query. Qed.

Lemma decode_then_getBlockAt_witness :
  let payload := [x01; x08; x01; x01; x00; x05; x00] in
  exists chunk this',
    decodeChunk constructor (Some payload) 0 0 = (Return chunk, this')
    /\ getBlockAt chunk (1 mod 16) (1 / 256) (1 mod 256 / 16)
       = Return (Some (createBlockData constructor 5 1))
    /\ getBlockAt chunk (0 mod 16) (0 / 256) (0 mod 256 / 16)
       = Return (Some (airSentinel 0 (0 mod 16) (0 / 256) (0 mod 256 / 16))).
Proof.
  intros payload. do 2 eexists. split; [vm_compute; reflexivity|]. split.
  - apply (proj1 (decode_then_getBlockAt constructor payload 0 0 _ _ 1 1 1 5
                    eq_refl eq_refl ltac:(lia) eq_refl ltac:(lia) ltac:(lia)
                    ltac:(vm_compute; reflexivity) eq_refl)).
    lia.
  - apply (proj2 (decode_then_getBlockAt constructor payload 0 0 _ _ 1 1 0 0
                    eq_refl eq_refl ltac:(lia) eq_refl ltac:(lia) ltac:(lia)
                    ltac:(vm_compute; reflexivity) eq_refl)); reflexivity.
Defined.

(** ** When a decoded chunk is empty *)

(** X9. The chunk decoded from a payload of at least two bytes has no sub-chunk
    exactly when the count byte is 0, or is [0x80] or more (a negative count
    once read as a signed byte), or the payload is shorter than four bytes. *)
Theorem decodeChunk_empty_iff this payload chunkX chunkZ chunk this' u :
  decodeChunk this (Some payload) chunkX chunkZ = (Return chunk, this') ->
  Buffer.readUInt8 payload 0 = Some u ->
  Chunk.subChunks chunk = [] <-> u = 0 \/ 128 <= u \/ Buffer.length payload <= 3.
Proof.
  intros Hdec Hu.
  assert (Buffer.readInt8 payload 0 = Some (Buffer.toInt8 u)) as Hcount
    by (unfold Buffer.readInt8; by rewrite Hu).
  apply readUInt8_Some in Hu as [_ Hrange].
  destruct (Z.le_gt_cases (Buffer.toInt8 u) 0) as [Hle|Hgt].
  - split.
    + intros _. unfold Buffer.toInt8 in Hle. destruct (Z.leb_spec 128 u); lia.
    + intros _.
      apply decodeChunk_inv in Hdec
        as (_ & _ & _ & _ & count & offset & Hcount' & Hloop).
      rewrite Hcount in Hcount'. injection Hcount' as <-.
      replace (Z.to_nat (Buffer.toInt8 u)) with 0%nat in Hloop by lia.
      by injection Hloop as <- _.
  - assert (0 < u < 128) as Hu'
      by (unfold Buffer.toInt8 in Hgt; destruct (Z.leb_spec 128 u); lia).
    destruct (Z.le_gt_cases (Buffer.length payload) 3) as [Hshort|Hlong].
    + split; [by intros _; right; right|]. intros _.
      apply decodeChunk_inv in Hdec
        as (_ & _ & _ & _ & count & offset & Hcount' & Hloop).
      rewrite Hcount in Hcount'. injection Hcount' as <-.
      destruct (Z.to_nat (Buffer.toInt8 u)) as [|fuel]; [by injection Hloop as <- _|].
      rewrite subChunkLoop_unfold in Hloop.
      destruct (Z.ltb_spec 2 (Buffer.length payload - 1)); [lia|].
      rewrite andb_false_r in Hloop. by injection Hloop as <- _.
    + destruct (decodeChunk_first_subChunk _ _ _ _ _ _ _ Hdec Hcount)
        as (r & rest & _ & ->); [lia|lia|].
      split; [done|]. lia.
Qed.

Lemma decodeChunk_empty_iff_witness :
  exists chunk this',
    decodeChunk constructor (Some [xff; x08; x01; x01; x05; x00]) 0 0
    = (Return chunk, this')
    /\ Chunk.subChunks chunk = [].
Proof.
  do 2 eexists. split; [vm_compute; reflexivity|].
  apply (decodeChunk_empty_iff constructor [xff; x08; x01; x01; x05; x00] 0 0 _ _ 255
           eq_refl eq_refl).
  right. left. lia.
Defined.

(** ** The keys of the chunk cache *)

Lemma pretty_N_char_not_comma n : pretty_N_char n <> ","%char.
Proof. unfold pretty_N_char. by repeat case_match. Qed.

Lemma pretty_N_go_commaFree n : forall s, commaFree s -> commaFree (pretty_N_go n s).
Proof.
  induction (N.lt_wf_0 n) as [n _ IH]; intros s Hs.
  assert (n = 0 \/ 0 < n)%N as [->|Hpos] by lia.
  - by rewrite pretty_N_go_0.
  - rewrite pretty_N_go_step by done. apply IH.
    + by apply N.div_lt.
    + simpl. split; [apply pretty_N_char_not_comma|done].
Qed.

Lemma pretty_N_commaFree (n : N) : commaFree (pretty n).
Proof.
  unfold pretty, pretty_N. case_decide.
  - simpl. by split.
  - by apply pretty_N_go_commaFree.
Qed.

Lemma pretty_Z_commaFree (n : Z) : commaFree (pretty n).
Proof.
  unfold pretty, pretty_Z. destruct n as [|p|p].
  - simpl. by split.
  - apply pretty_N_commaFree.
  - simpl. split; [done|]. apply pretty_N_commaFree.
Qed.

Lemma append_nil (s : string) : EmptyString +:+ s = s.
Proof. reflexivity. Qed.

Lemma append_cons c (a s : string) : String c a +:+ s = String c (a +:+ s).
Proof. reflexivity. Qed.

Lemma comma_split a : forall c b d,
  commaFree a -> commaFree c ->
  a +:+ "," +:+ b = c +:+ "," +:+ d -> a = c /\ b = d.
Proof.
  induction a as [|ch a IH]; intros c b d Ha Hc Heq.
  - destruct c as [|ch' c]; rewrite ?append_cons, ?append_nil in Heq.
    + by injection Heq as ->.
    + injection Heq as <- _. by destruct Hc.
  - destruct c as [|ch' c]; rewrite ?append_cons, ?append_nil in Heq.
    + injection Heq as -> _. by destruct Ha.
    + injection Heq as -> Heq. destruct Ha as [_ Ha], Hc as [_ Hc].
      destruct (IH c b d Ha Hc Heq) as [-> ->]. done.
Qed.

Lemma cacheKey_inj x z x' z' : cacheKey x z = cacheKey x' z' -> x = x' /\ z = z'.
Proof.
  unfold cacheKey. intros Heq.
  apply comma_split in Heq as [Hx Hz]; try apply pretty_Z_commaFree.
  split; by apply (inj pretty).
Qed.

(** X10. A call of [decodeChunk] for [(x, z)], whatever its outcome, leaves the
    mapping table and the cache entries of all other coordinates as they
    were; on success the entry of [(x, z)] is the returned chunk, on failure
    the decoder is unchanged. Two different pairs of integer coordinates,
    printed in decimal, never share a cache key. *)
Theorem decodeChunk_cache_frame this payload x z r this' :
  decodeChunk this payload x z = (r, this') ->
  blockMappings this' = blockMappings this
  /\ (forall x' z',
        (x', z') <> (x, z) ->
        getLastDecodedChunk this' x' z' = getLastDecodedChunk this x' z')
  /\ match r with
     | Return chunk => getLastDecodedChunk this' x z = Some chunk
     | Throw _ => this' = this
     end.
Proof.
  unfold decodeChunk.
  destruct (decodeChunkTry this payload x z) as [chunk|m] eqn:Htry;
    intros [= <- <-]; [|done].
  destruct (decodeChunkTry_coordinates _ _ _ _ _ Htry) as [Hx Hz].
  split; [done|]. split.
  - intros x' z' Hne. unfold getLastDecodedChunk, cacheChunk. simpl.
    apply lookup_insert_ne. rewrite Hx, Hz.
    intros [-> ->]%cacheKey_inj. done.
  - rewrite <- Hx, <- Hz. apply cacheChunk_lookup.
Qed.

Lemma decodeChunk_cache_frame_witness :
  let r1 := decodeChunk constructor (Some [x00; x08]) 1 (-1) in
  let r2 := decodeChunk r1.2 (Some [x01; x08; x01; x01; x05; x00]) (-1) 1 in
  blockMappings r2.2 = blockMappings r1.2
  /\ getLastDecodedChunk r2.2 1 (-1) = getLastDecodedChunk r1.2 1 (-1)
  /\ getLastDecodedChunk r1.2 1 (-1)
     = Some {| Chunk.x := 1; Chunk.z := -1; Chunk.subChunks := [] |}.
Proof.
  intros r1 r2.
  pose proof (decodeChunk_cache_frame r1.2 (Some [x01; x08; x01; x01; x05; x00]) (-1) 1
                r2.1 r2.2 (surjective_pairing r2)) as (Hmap & Hframe & _).
  pose proof (decodeChunk_cache_frame constructor (Some [x00; x08]) 1 (-1)
                r1.1 r1.2 (surjective_pairing r1)) as (_ & _ & Hhit).
  split; [exact Hmap|]. split; [|exact Hhit].
  apply Hframe. discriminate.
Defined.

(** ** Loading the mapping table again *)

Lemma decoder_eq (a b : ChunkDecoder) :
  blockMappings a = blockMappings b -> chunkCache a = chunkCache b -> a = b.
Proof. destruct a, b. simpl. by intros -> ->. Qed.

(** X11. Loading two sequences one after the other is loading their
    concatenation, and loading a sequence a second time changes nothing. *)
Theorem setBlockMappings_again this first second :
  setBlockMappings (setBlockMappings this first) second
  = setBlockMappings this (first ++ second)
  /\ setBlockMappings (setBlockMappings this first) first = setBlockMappings this first.
Proof.
  split; [unfold setBlockMappings; by rewrite foldl_app|].
  apply decoder_eq; [|by rewrite !setBlockMappings_chunkCache].
  apply map_eq. intros rid. rewrite setBlockMappings_lookup.
  destruct (lastNameFor rid first) as [n|] eqn:Hlast; [|done].
  by rewrite setBlockMappings_lookup, Hlast.
Qed.

(** ** The outcomes of decodeSubChunk *)

(** X12. [decodeSubChunk] returns exactly when the cursor is not negative and two
    header bytes lie below the last byte; the sub-chunk then carries the
    slot it was called with and the first header byte, read as a signed
    byte, as its version. It throws its buffer overflow error exactly when
    the cursor has reached [length - 1]. *)
Theorem decodeSubChunk_outcome this payload offset yLevel :
  ((exists r, decodeSubChunk this payload offset yLevel = Return r)
   <-> 0 <= offset < Buffer.length payload - 1)
  /\ (decodeSubChunk this payload offset yLevel
      = Throw "Buffer overflow while reading subchunk"
      <-> Buffer.length payload - 1 <= offset)
  /\ (forall r,
        decodeSubChunk this payload offset yLevel = Return r ->
        SubChunk.y (data r) = yLevel
        /\ Buffer.readInt8 payload offset = Some (SubChunk.version (data r))
        /\ -128 <= SubChunk.version (data r) <= 127).
Proof.
  split; [|split].
  - split.
    + by intros [r (_ & _ & Ho & _)%decodeSubChunk_inv].
    + apply decodeSubChunk_Return.
  - split; [|apply decodeSubChunk_overflow].
    intros Hthrow.
    destruct (Z.le_gt_cases (Buffer.length payload - 1) offset) as [|Hlt]; [done|].
    exfalso. revert Hthrow. unfold decodeSubChunk.
    destruct (Z.leb_spec (Buffer.length payload - 1) offset); [lia|].
    destruct (Buffer.readInt8 payload offset) as [version|]; simpl; [|discriminate].
    destruct (Buffer.readInt8 payload (offset + 1)) as [layerCount|]; simpl;
      [|discriminate].
    by destruct (layerLoop _ _ _ _ _ _ _).
  - intros r (version & layerCount & _ & Hversion & _ & ->)%decodeSubChunk_inv. simpl.
    split; [done|]. split; [done|].
    apply readInt8_Some in Hversion as [_ ?]. lia.
Qed.

(** ** What a decode reads of the decoder *)

(** X13. The completion of [decodeChunk] depends on the decoder through its
    mapping table only: the chunk cache is never read. *)
Theorem decodeChunk_ignores_cache this this' payload chunkX chunkZ :
  blockMappings this = blockMappings this' ->
  (decodeChunk this payload chunkX chunkZ).1
  = (decodeChunk this' payload chunkX chunkZ).1.
Proof.
  intros Hmappings. unfold decodeChunk.
  rewrite (decodeChunkTry_mappings this this' Hmappings).
  by destruct (decodeChunkTry this' payload chunkX chunkZ).
Qed.

Lemma decodeChunk_ignores_cache_witness :
  let this' := (decodeChunk constructor (Some [x00; x08]) 4 4).2 in
  (decodeChunk constructor (Some [x01; x08; x01; x01; x05; x00]) 2 3).1
  = (decodeChunk this' (Some [x01; x08; x01; x01; x05; x00]) 2 3).1.
Proof.
  intros this'.
  apply (decodeChunk_ignores_cache constructor this'). reflexivity.
Defined.

(** ** A session: mappings first, then a chunk *)

Lemma onLevelChunk_decoder decoder packet payload :
  LevelChunk.payload packet = Some payload ->
  (onLevelChunk decoder packet).1 = Return tt
  /\ (onLevelChunk decoder packet).2
     = (decodeChunk decoder (Some payload) (LevelChunk.x packet) (LevelChunk.z packet)).2.
Proof.
  intros Hpayload. unfold onLevelChunk. rewrite Hpayload.
  by destruct (decodeChunk _ _ _ _) as [[chunk|m] d].
Qed.

(** X14. After the start-game handler has loaded a sequence of item states and
    the chunk handler has been given a payload with at least one sub-chunk
    and one layer declared, the chunk cached for the coordinates of the
    packet answers the query at the coordinates of index [i] with a block of
    the id found at offset [4 + i], provided that byte is not zero and lies
    below the last byte; the block is named after the last item state
    carrying that id, if its name is not empty. *)
Theorem session_block_name decoder states packet payload subChunkCount layerCount i v n :
  let started := onStartGame decoder {| StartGame.itemstates := Some states |} in
  let decoded := (onLevelChunk started packet).2 in
  LevelChunk.payload packet = Some payload ->
  Buffer.readInt8 payload 0 = Some subChunkCount -> 1 <= subChunkCount ->
  Buffer.readInt8 payload 3 = Some layerCount -> 1 <= layerCount ->
  0 <= i < 4096 ->
  4 + i < Buffer.length payload - 1 ->
  Buffer.readUInt8 payload (4 + i) = Some v -> v <> 0 ->
  lastNameFor v states = Some n -> n <> EmptyString ->
  exists chunk b,
    getLastDecodedChunk decoded (LevelChunk.x packet) (LevelChunk.z packet) = Some chunk
    /\ getBlockAt chunk (i mod 16) (i / 256) (i mod 256 / 16) = Return (Some b)
    /\ Block.index b = i /\ Block.id b = v /\ Block.name b = n.
Proof.
  intros started decoded Hpayload Hcount Hpos Hlayers Hlpos Hi Hlt Hread Hv Hlast Hn.
  destruct (onLevelChunk_decoder started packet payload Hpayload) as [_ Hdecoded].
  fold decoded in Hdecoded.
  destruct (decodeChunk_Return started payload (LevelChunk.x packet) (LevelChunk.z packet))
    as (count & subChunks & offset & _ & _ & Hdec); [lia|].
  rewrite Hdec in Hdecoded. simpl in Hdecoded.
  eexists. exists (createBlockData started v i).
  split; [rewrite Hdecoded; apply (cacheChunk_lookup started
            {| Chunk.x := LevelChunk.x packet; Chunk.z := LevelChunk.z packet;
               Chunk.subChunks := subChunks |})|].
  split.
  - destruct (decode_first_subChunk_query started payload _ _ _ _
                subChunkCount layerCount i v Hdec Hcount Hpos Hlayers Hlpos Hi Hlt Hread)
      as [Hnonzero _].
    by apply Hnonzero.
  - split; [done|]. split; [done|]. simpl.
    unfold started, onStartGame. simpl.
    rewrite setBlockMappings_lookup, Hlast. simpl.
    by rewrite bool_decide_eq_false_2.
Qed.

Lemma session_block_name_witness :
  let states :=
    [ {| name := "minecraft:dirt"; runtime_id := Some 5 |};
      {| name := "minecraft:stone"; runtime_id := Some 5 |} ] in
  let packet :=
    {| LevelChunk.payload := Some [x01; x08; x01; x01; x00; x05; x00];
       LevelChunk.x := 2; LevelChunk.z := -3 |} in
  let started := onStartGame constructor {| StartGame.itemstates := Some states |} in
  let decoded := (onLevelChunk started packet).2 in
  exists chunk b,
    getLastDecodedChunk decoded (LevelChunk.x packet) (LevelChunk.z packet) = Some chunk
    /\ getBlockAt chunk (1 mod 16) (1 / 256) (1 mod 256 / 16) = Return (Some b)
    /\ Block.index b = 1 /\ Block.id b = 5 /\ Block.name b = "minecraft:stone".
Proof.
  intros states packet.
  apply (session_block_name constructor states packet
           [x01; x08; x01; x01; x00; x05; x00] 1 1 1 5 "minecraft:stone");
    try reflexivity; try lia; try discriminate.
Defined.

(** ** The slot and the local height of a query *)


